(** * MegaLinter orchestration engine: a shallow embedding of
      [megalinter/MegaLinter.py] and its verified properties.

    The Python class [Megalinter] is embedded as a record of the attributes
    the orchestration reads and writes, and each method as a function that
    takes the record ([self]) and returns the updated record.  The parts of
    the world the methods consult (the file system, the version-control
    layer, the configuration) are explicit arguments.  Exceptions are values
    of [outcome]. *)

From Stdlib Require Import String Ascii ZArith List Bool Lia.
From Stdlib Require Import Sorted Permutation Mergesort Orders OrderedTypeEx.
From Stdlib Require Import RelationClasses.
Import ListNotations.

Local Open Scope string_scope.
Local Open Scope Z_scope.
Local Open Scope list_scope.

(** ** Strings and paths *)

(** Python's [+] on [str]. *)
Notation "a +s b" := (String.append a b)
  (at level 50, left associativity) : string_scope.

(** [os.path.sep] on the POSIX platforms MegaLinter runs on. *)
Definition sep : string := "/".

(** The line feed of the [\n] escapes in the error message. *)
Definition nl : string := String (ascii_of_nat 10) EmptyString.

(** [s.startswith(p)] *)
Definition startswith (s p : string) : bool := String.prefix p s.

(** [s.endswith("/")] *)
Fixpoint endswith_sep (s : string) : bool :=
  match s with
  | EmptyString => false
  | String c EmptyString => Ascii.eqb c "/"%char
  | String _ s' => endswith_sep s'
  end.

(** [os.path.join(a, b)] of [posixpath], two arguments. *)
Definition path_join (a b : string) : string :=
  if startswith b sep then b
  else if (String.eqb a "" || endswith_sep a)%bool then a +s b
  else a +s sep +s b.

(** ** Exceptions *)

Inductive exn : Type :=
| AssertionError (msg : string)
| FileNotFoundError (msg : string)
| InvalidGitRepositoryError
| GitCommandError.

Inductive outcome (A : Type) : Type :=
| Ok (a : A)
| Raise (e : exn).
Arguments Ok {A} a.
Arguments Raise {A} e.

Definition bind {A B} (m : outcome A) (k : A -> outcome B) : outcome B :=
  match m with
  | Ok a => k a
  | Raise e => Raise e
  end.

Notation "x <- m ;; k" := (bind m (fun x => k))
  (at level 61, m at next level, right associativity).

(** ** Linters (the attributes of [Linter] the orchestration uses) *)

Module Linter.
Record t : Type := mk {
  name : string;
  descriptor_id : string;
  is_active : bool;
  apply_fixes : bool;
  lint_all_files : bool;
  files : list string;
  status : string;
  return_code : Z;
  number_fixed : Z
}.

(** [linter.is_active = b] *)
Definition set_is_active (l : t) (b : bool) : t :=
  mk (name l) (descriptor_id l) b (apply_fixes l) (lint_all_files l)
     (files l) (status l) (return_code l) (number_fixed l).
End Linter.

(** ** The orchestrator state ([self]) *)

Record Megalinter : Type := mkMegalinter {
  workspace : string;
  validate_all_code_base : bool;
  linters : list Linter.t;
  status : string;
  return_code : Z;
  has_updated_sources : Z;
  fail_if_updated_sources : bool;
  cli : bool
}.

Definition set_validate_all_code_base (self : Megalinter) (b : bool) :=
  mkMegalinter (workspace self) b (linters self) (status self)
    (return_code self) (has_updated_sources self)
    (fail_if_updated_sources self) (cli self).

Definition set_linters (self : Megalinter) (ls : list Linter.t) :=
  mkMegalinter (workspace self) (validate_all_code_base self) ls (status self)
    (return_code self) (has_updated_sources self)
    (fail_if_updated_sources self) (cli self).

Definition set_status (self : Megalinter) (s : string) :=
  mkMegalinter (workspace self) (validate_all_code_base self) (linters self) s
    (return_code self) (has_updated_sources self)
    (fail_if_updated_sources self) (cli self).

Definition set_return_code (self : Megalinter) (rc : Z) :=
  mkMegalinter (workspace self) (validate_all_code_base self) (linters self)
    (status self) rc (has_updated_sources self)
    (fail_if_updated_sources self) (cli self).

Definition set_has_updated_sources (self : Megalinter) (n : Z) :=
  mkMegalinter (workspace self) (validate_all_code_base self) (linters self)
    (status self) (return_code self) n
    (fail_if_updated_sources self) (cli self).

(** The runtime properties as [__init__] leaves them: [status = "success"],
    [return_code = 0], [has_updated_sources = 0]; the other attributes come
    from the configuration and from [load_linters]. *)
Definition init (ws : string) (validate_all : bool) (ls : list Linter.t)
    (fail_if_updated : bool) (is_cli : bool) : Megalinter :=
  mkMegalinter ws validate_all ls "success" 0 0 fail_if_updated is_cli.

(** ** [get_workspace] *)

(** [DEFAULT_DOCKER_WORKSPACE_DIR] comes from [megalinter.constants] and is an
    argument here ([docker_dir]); [isdir] is [os.path.isdir] on the file
    system of the run; [arg_input] is [self.arg_input] ([None] when [--input]
    was not given); [default_workspace] and [github_workspace] are the values
    of [config.get("DEFAULT_WORKSPACE", "")] and
    [config.get("GITHUB_WORKSPACE", "")]. *)
Definition get_workspace (isdir : string -> bool) (docker_dir : string)
    (arg_input : option string) (default_workspace github_workspace : string)
    : outcome string :=
  match arg_input with
  | Some input =>
      if isdir input then Ok input
      else if isdir (docker_dir +s "/" +s input)
           then Ok (docker_dir +s "/" +s input)
           else Raise (AssertionError
                  ("--input directory not found at " +s docker_dir +s "/"
                   +s input))
  | None =>
      if ((default_workspace =? "") && negb (github_workspace =? "")
          && isdir (github_workspace +s docker_dir))%string%bool
      then Ok (github_workspace +s docker_dir)
      else if (negb (default_workspace =? "")
               && isdir (docker_dir +s sep +s default_workspace))%string%bool
      then Ok (default_workspace +s docker_dir +s sep +s default_workspace)
      else if (negb (default_workspace =? "")
               && isdir default_workspace)%string%bool
      then Ok default_workspace
      else if isdir docker_dir
      then Ok docker_dir
      else if (negb (default_workspace =? "") && negb (github_workspace =? "")
               && isdir (github_workspace +s sep +s default_workspace))%string%bool
      then Ok (github_workspace +s sep +s default_workspace)
      else if ((default_workspace =? "") && negb (github_workspace =? "")
               && negb (github_workspace =? "/")
               && isdir github_workspace)%string%bool
      then Ok github_workspace
      else Raise (FileNotFoundError
             ("[Context] Unable to find a workspace to lint " +s nl
              +s "DEFAULT_WORKSPACE: " +s default_workspace +s nl
              +s "GITHUB_WORKSPACE: " +s github_workspace))
  end.

(** ** [sorted(set(all_files))] *)

(** Python compares [str] values code point by code point; on the byte
    strings used here this is [String.compare]. *)
Module StringOrder <: TotalLeBool.
Definition t := string.
Definition leb (a b : string) : bool := String.leb a b.
Definition leb_total : forall a b, leb a b = true \/ leb b a = true :=
  String.leb_total.
End StringOrder.

Module StringSort := Sort StringOrder.

(** [sorted(l)] on a list of strings (a stable merge sort, as Python's). *)
Definition py_sorted (l : list string) : list string := StringSort.sort l.

(** [set(l)], listed in one of its possible iteration orders: the order of
    a set is not specified, and [sorted_set_any_order] shows that what
    [collect_files] computes from it does not depend on the choice. *)
Definition py_set (l : list string) : list string := nodup string_dec l.

(** ** The file tree under the workspace *)

(** A directory entry is a regular file or a directory with named entries,
    in the order [os.scandir] lists them. *)
#[warnings="-register-all"]
Inductive node : Type :=
| File : node
| Dir (entries : list (string * node)) : node.

Definition is_file (n : node) : bool :=
  match n with File => true | Dir _ => false end.

(** [x in l] on strings. *)
Definition str_in (x : string) (l : list string) : bool :=
  existsb (String.eqb x) l.

(** The names of the entries of one kind. *)
Definition names_where (p : node -> bool) (entries : list (string * node))
    : list string :=
  map fst (filter (fun e => p (snd e)) entries).

(** [os.walk(dirpath, topdown=True)] as [list_files_all] consumes it: at each
    directory, the sorted file names joined to [dirpath], then the walk of
    every sub-directory whose name was left in [dirnames], that is, not in
    [excluded]. *)
Fixpoint walk (excluded : list string) (dirpath : string) (n : node)
    {struct n} : list string :=
  match n with
  | File => []
  | Dir entries =>
      map (path_join dirpath) (py_sorted (names_where is_file entries))
      ++ flat_map
           (fun e =>
              if str_in (fst e) excluded then []
              else walk excluded (path_join dirpath (fst e)) (snd e))
           entries
  end.

(** The entries of the workspace directory ([os.listdir] of a file is an
    error the model leaves out: the workspace is a directory). *)
Definition entries_of (n : node) : list (string * node) :=
  match n with File => [] | Dir entries => entries end.

(** [list_files_all]: the regular files directly under the workspace, then
    the pruned walk (which lists them again).  [excluded] is the value of
    [utils.get_excluded_directories()]. *)
Definition list_files_all (excluded : list string) (ws : string) (root : node)
    : list string :=
  let all_files :=
    map (path_join ws)
        (filter (fun file => str_in file (names_where is_file (entries_of root)))
                (py_sorted (map fst (entries_of root)))) in
  all_files ++ walk excluded ws root.

(** ** The version-control layer *)

(** What [git] answers when [list_files_git_diff] asks for the diff with the
    default branch: the lines of [git diff --name-only], or an exception. *)
Inductive git_answer : Type :=
| DiffLines (lines : list string)
| NotARepository
| GitFailure.

(** [list_files_git_diff]: the diff lines that are files of the workspace.
    [isfile] is [os.path.isfile]. *)
Definition list_files_git_diff (isfile : string -> bool) (git : git_answer)
    (self : Megalinter) : outcome (list string) :=
  match git with
  | DiffLines lines =>
      Ok (filter isfile
            (map (fun diff_line => workspace self +s sep +s diff_line) lines))
  | NotARepository => Raise InvalidGitRepositoryError
  | GitFailure => Raise GitCommandError
  end.

(** ** [collect_files] *)

(** What [collect_files] reads from outside [self]. *)
Record Env : Type := mkEnv {
  files_to_lint : list string;       (* MEGALINTER_FILES_TO_LINT *)
  isfile : string -> bool;           (* os.path.isfile *)
  root : node;                       (* the tree under self.workspace *)
  excluded_directories : list string;(* utils.get_excluded_directories() *)
  git : git_answer;                  (* the diff with the default branch *)
  git_ignored : outcome (list string)(* list_git_ignored_files() *)
}.

(** Lines 514-542: the list of files before [sorted(set(...))], and [self]
    with the validate-all flag as the chosen branch leaves it. *)
Definition discover_raw (env : Env) (self : Megalinter)
    : outcome (list string * Megalinter) :=
  if (0 <? Z.of_nat (length (files_to_lint env)))
  then
    Ok (filter (isfile env)
          (map (fun file_to_lint => workspace self +s sep +s file_to_lint)
               (files_to_lint env)),
        self)
  else if negb (validate_all_code_base self)
  then
    match list_files_git_diff (isfile env) (git env) self with
    | Ok all_files => Ok (all_files, self)
    | Raise InvalidGitRepositoryError =>
        Ok (list_files_all (excluded_directories env) (workspace self) (root env),
            set_validate_all_code_base self true)
    | Raise e => Raise e
    end
  else
    Ok (list_files_all (excluded_directories env) (workspace self) (root env),
        self).

(** Lines 514-543: the file list handed to filtering. *)
Definition discover (env : Env) (self : Megalinter)
    : outcome (list string * Megalinter) :=
  r <- discover_raw env self ;;
  Ok (py_sorted (py_set (fst r)), snd r).

(** Lines 563-591: the ignored files, [[]] when listing them raises. *)
Definition ignored_files (ignore_gitignore_files : bool) (env : Env)
    : list string :=
  if ignore_gitignore_files
  then match git_ignored env with Ok l => l | Raise _ => [] end
  else [].

(** Lines 617-620, the body of the loop: [linter_collect_files] is
    [Linter.collect_files], which assigns the linter its files. *)
Definition collect_linter_files
    (linter_collect_files : Linter.t -> list string -> Linter.t)
    (filtered_files : list string) (linter : Linter.t) : Linter.t :=
  let linter := linter_collect_files linter filtered_files in
  if ((Z.of_nat (length (Linter.files linter)) =? 0)
      && negb (Linter.lint_all_files linter))%bool
  then Linter.set_is_active linter false
  else linter.

(** [collect_files].  [filter_files all_files ignored] is
    [utils.filter_files] with the filters of [self] applied. *)
Definition collect_files
    (filter_files : list string -> list string -> list string)
    (linter_collect_files : Linter.t -> list string -> Linter.t)
    (ignore_gitignore_files : bool)
    (env : Env) (self : Megalinter) : outcome Megalinter :=
  r <- discover env self ;;
  let all_files := fst r in
  let self := snd r in
  let filtered_files :=
    filter_files all_files (ignored_files ignore_gitignore_files env) in
  Ok (set_linters self
        (map (collect_linter_files linter_collect_files filtered_files)
             (linters self))).

(** ** [run]: the active linters (lines 145-151) *)

(** The loop that fills [active_linters] and [linters_do_fixes]. *)
Definition active_step (acc : list Linter.t * bool) (linter : Linter.t)
    : list Linter.t * bool :=
  let '(active_linters, linters_do_fixes) := acc in
  if Linter.is_active linter
  then (active_linters ++ [linter],
        if Linter.apply_fixes linter then true else linters_do_fixes)
  else (active_linters, linters_do_fixes).

Definition select_active (self : Megalinter) : list Linter.t * bool :=
  fold_left active_step (linters self) ([], false).

(** ** [process_linters_parallel] *)

(** [linters_by_descriptor] is a [dict]: keys in insertion order, one entry
    per key. *)
Definition dict : Type := list (string * list Linter.t).

(** [d.get(k, [])] *)
Fixpoint dict_get (d : dict) (k : string) : list Linter.t :=
  match d with
  | [] => []
  | (k', v) :: d' => if (k' =? k)%string then v else dict_get d' k
  end.

(** [d[k] = v]: an existing key keeps its place, a new one goes last. *)
Fixpoint dict_set (d : dict) (k : string) (v : list Linter.t) : dict :=
  match d with
  | [] => [(k, v)]
  | (k', v') :: d' =>
      if (k' =? k)%string then (k', v) :: d' else (k', v') :: dict_set d' k v
  end.

(** Lines 220-225, the body of the grouping loop. *)
Definition group_step (linters_by_descriptor : dict) (linter : Linter.t)
    : dict :=
  let descriptor_active_linters :=
    dict_get linters_by_descriptor (Linter.descriptor_id linter) in
  let descriptor_active_linters := descriptor_active_linters ++ [linter] in
  dict_set linters_by_descriptor (Linter.descriptor_id linter)
    descriptor_active_linters.

Definition linters_by_descriptor (active_linters : list Linter.t) : dict :=
  fold_left group_step active_linters [].

(** Lines 216-231: [linter_groups]. *)
Definition linter_groups (active_linters : list Linter.t)
    (linters_do_fixes : bool) : list (list Linter.t) :=
  if linters_do_fixes
  then map snd (linters_by_descriptor active_linters)
  else map (fun linter => [linter]) active_linters.

(** Lines 251-254: the first entry of [self.linters] with the name of
    [updated_linter] is replaced by it. *)
Fixpoint replace_by_name (ls : list Linter.t) (updated_linter : Linter.t)
    : list Linter.t :=
  match ls with
  | [] => []
  | l :: ls' =>
      if (Linter.name l =? Linter.name updated_linter)%string
      then updated_linter :: ls'
      else l :: replace_by_name ls' updated_linter
  end.

(** Lines 248-254: every linter of every pool result, in order. *)
Definition reconcile (ls : list Linter.t)
    (pool_results : list (list Linter.t)) : list Linter.t :=
  fold_left (fun ls updated_linters =>
               fold_left replace_by_name updated_linters ls)
            pool_results ls.

(** [process_linters_parallel].  [run_linters] is what the pool evaluates on
    a group in a worker process: it runs the linters of its copy of the
    group, in order, and returns the copy. *)
Definition process_linters_parallel
    (run_linters : list Linter.t -> list Linter.t)
    (self : Megalinter) (active_linters : list Linter.t)
    (linters_do_fixes : bool) : Megalinter :=
  let linter_groups := linter_groups active_linters linters_do_fixes in
  let pool_results := map run_linters linter_groups in
  set_linters self (reconcile (linters self) pool_results).

(** ** [run]: the aggregation loop (lines 168-183) *)

Definition update_status (self : Megalinter) (linter : Linter.t)
    : Megalinter :=
  let self :=
    if negb (Linter.status linter =? "success")%string
    then if Linter.return_code linter =? 0
         then if (status self =? "success")%string
              then set_status self "warning"
              else self
         else set_status self "error"
    else self in
  let self :=
    if Linter.return_code linter >? 0
    then set_return_code self (Linter.return_code linter)
    else self in
  if Linter.number_fixed linter >? 0
  then set_has_updated_sources self 1
  else self.

Definition aggregate (self : Megalinter) : Megalinter :=
  fold_left update_status (linters self) self.

(** ** [check_results] *)

(** How a method ends: it returns, or it calls [sys.exit(code)]. *)
Inductive ending : Type :=
| Returns
| SysExit (code : Z).

Definition check_updated_sources_failure (self : Megalinter) : ending :=
  if ((has_updated_sources self >? 0) && fail_if_updated_sources self)%bool
  then SysExit 1
  else Returns.

(** [disable_errors] is [config.get("DISABLE_ERRORS", "false")]. *)
Definition check_results (disable_errors : string) (self : Megalinter)
    : ending :=
  if (status self =? "success")%string
  then check_updated_sources_failure self
  else if (status self =? "warning")%string
  then check_updated_sources_failure self
  else if cli self
       then if (disable_errors =? "true")%string
            then SysExit 0
            else SysExit (return_code self)
       else Returns.

(** The verdict of a run whose linters have finished: aggregation, then
    [check_results]. *)
Definition verdict (disable_errors : string) (self : Megalinter) : ending :=
  check_results disable_errors (aggregate self).

(** A blocking failure: the process is made to exit with a non-zero code. *)
Definition blocking (e : ending) : Prop :=
  exists code, e = SysExit code /\ code <> 0.

(** ** Notions of the specification *)

(** In [get_workspace], the rule "Docker run without override of
    DEFAULT_WORKSPACE" (the second of the rules tried without [--input]) is
    the one that fires. *)
Definition docker_default_rule (isdir : string -> bool) (docker_dir : string)
    (default_workspace github_workspace : string) : bool :=
  (negb ((default_workspace =? "") && negb (github_workspace =? "")
         && isdir (github_workspace +s docker_dir))
   && (negb (default_workspace =? "")
       && isdir (docker_dir +s sep +s default_workspace)))%string%bool.

(** A linter with an issue that blocks: its status is not ["success"] and
    its return code is not zero. *)
Definition blocking_issue (l : Linter.t) : bool :=
  (negb (Linter.status l =? "success")%string
   && negb (Linter.return_code l =? 0))%bool.

(** A linter with an issue that does not block. *)
Definition ignored_issue (l : Linter.t) : bool :=
  (negb (Linter.status l =? "success")%string
   && (Linter.return_code l =? 0))%bool.

(** The return code of the last linter, in iteration order, whose return
    code satisfies [p]; zero when there is none. *)
Definition last_return_code (p : Z -> bool) (ls : list Linter.t) : Z :=
  match find (fun l => p (Linter.return_code l)) (rev ls) with
  | Some l => Linter.return_code l
  | None => 0
  end.

Definition nonzero (rc : Z) : bool := negb (rc =? 0).
Definition positive (rc : Z) : bool := rc >? 0.

(** The maximum of the non-zero return codes; zero when there is none. *)
Definition max_nonzero_return_code (ls : list Linter.t) : Z :=
  match filter nonzero (map Linter.return_code ls) with
  | [] => 0
  | rc :: rcs => fold_right Z.max rc rcs
  end.

(** The linters of one conflict class, in order. *)
Definition of_descriptor (d : string) (ls : list Linter.t) : list Linter.t :=
  filter (fun l => (Linter.descriptor_id l =? d)%string) ls.

(** Strictly ascending lists of paths. *)
Definition ascending (l : list string) : Prop :=
  StronglySorted (fun a b => String.ltb a b = true) l.

(** Two listings of one file tree: the same names with the same kinds
    under every directory, whatever the order in which the directory lists
    them ([os.scandir] and [os.listdir] promise no order). *)
Inductive same_tree : node -> node -> Prop :=
| same_File : same_tree File File
| same_Dir es1 es2 : same_entries es1 es2 -> same_tree (Dir es1) (Dir es2)
with same_entries : list (string * node) -> list (string * node) -> Prop :=
| same_nil : same_entries [] []
| same_cons k c1 c2 r1 r2a r2b :
    same_tree c1 c2 -> same_entries r1 (r2a ++ r2b) ->
    same_entries ((k, c1) :: r1) (r2a ++ (k, c2) :: r2b).

Scheme same_tree_mut := Minimality for same_tree Sort Prop
  with same_entries_mut := Minimality for same_entries Sort Prop.

(** The environment with another listing of the workspace. *)
Definition with_root (env : Env) (t : node) : Env :=
  mkEnv (files_to_lint env) (isfile env) t (excluded_directories env)
        (git env) (git_ignored env).

(** ** Linters for the examples *)

(** A finished linter: active, no fixes applied on its own account, with the
    given result state. *)
Definition finished (n d st : string) (rc fixed : Z) : Linter.t :=
  Linter.mk n d true false false [] st rc fixed.

(** A linter about to be scheduled. *)
Definition scheduled (n d : string) (fixes : bool) : Linter.t :=
  Linter.mk n d true fixes false ["f"%string] "success" 0 0.

(** A pool worker for the examples: it reports every linter of the group
    with the given status and return code. *)
Definition run_reporting (st : string) (rc : Z) (g : list Linter.t)
    : list Linter.t :=
  map (fun l =>
         Linter.mk (Linter.name l) (Linter.descriptor_id l)
           (Linter.is_active l) (Linter.apply_fixes l)
           (Linter.lint_all_files l) (Linter.files l) st rc 0) g.

(** A linter that is not active. *)
Definition inactive (n d : string) : Linter.t :=
  Linter.mk n d false false false [] "success" 0 0.

(** A workspace for the examples: [b.py], a directory [a] holding [c.py],
    and an excluded directory [node_modules]; no [git] repository. *)
Definition example_tree : node :=
  Dir [("b.py", File);
       ("node_modules", Dir [("x.js", File)]);
       ("a", Dir [("c.py", File)])].

Definition example_env : Env :=
  mkEnv [] (fun _ => true) example_tree ["node_modules"; ".git"]
        NotARepository (Raise InvalidGitRepositoryError).

(** ** Notions for the further properties *)

(** [x] is a path the pruned walk of [t] from [dirpath] reaches: a file of
    the directory, or a path reached in a sub-directory whose name is not
    excluded. *)
Inductive walks_to (excluded : list string)
    : string -> node -> string -> Prop :=
| walks_file dirpath es n :
    In (n, File) es ->
    walks_to excluded dirpath (Dir es) (path_join dirpath n)
| walks_sub dirpath es d sub x :
    In (d, Dir sub) es ->
    str_in d excluded = false ->
    walks_to excluded (path_join dirpath d) (Dir sub) x ->
    walks_to excluded dirpath (Dir es) x.

(** ** [run_linters] and [process_linters_serial] *)

(** [run_linters] (lines 35-38): [linter.run()] on every linter of the
    group, in order.  [run] is [Linter.run] as a change of the state of the
    linter it is called on. *)
Definition run_linters (run : Linter.t -> Linter.t)
    (linters : list Linter.t) : list Linter.t :=
  map run linters.

(** The elements of [active_linters] are the linter objects of
    [self.linters] themselves, not copies: a linter of [active_linters] is
    referred to by the position of its object in [self.linters]. *)
Fixpoint active_refs_from (i : nat) (ls : list Linter.t) : list nat :=
  match ls with
  | [] => []
  | linter :: ls' =>
      if Linter.is_active linter
      then i :: active_refs_from (S i) ls'
      else active_refs_from (S i) ls'
  end.

(** Lines 145-149, as references. *)
Definition active_refs (self : Megalinter) : list nat :=
  active_refs_from 0 (linters self).

(** The objects the references point to. *)
Definition deref (ls : list Linter.t) (refs : list nat) : list Linter.t :=
  flat_map (fun i => match nth_error ls i with
                     | Some linter => [linter]
                     | None => []
                     end) refs.

(** A method call that changes the object at position [i]. *)
Fixpoint update_at (ls : list Linter.t) (i : nat)
    (f : Linter.t -> Linter.t) : list Linter.t :=
  match ls, i with
  | [], _ => []
  | l :: ls', O => f l :: ls'
  | l :: ls', S i' => l :: update_at ls' i' f
  end.

(** [process_linters_serial]: [linter.run()] on every active linter, in
    order, in place. *)
Definition process_linters_serial (run : Linter.t -> Linter.t)
    (self : Megalinter) (active_linters : list nat)
    (_linters_do_fixes : bool) : Megalinter :=
  set_linters self
    (fold_left (fun ls i => update_at ls i run) active_linters (linters self)).


(** [i in refs] *)
Definition ref_in (i : nat) (refs : list nat) : bool :=
  existsb (Nat.eqb i) refs.

(** A [Linter.run] for the examples: it reports the given status and return
    code. *)
Definition reporting (st : string) (rc : Z) (l : Linter.t) : Linter.t :=
  Linter.mk (Linter.name l) (Linter.descriptor_id l)
    (Linter.is_active l) (Linter.apply_fixes l)
    (Linter.lint_all_files l) (Linter.files l) st rc 0.

(** ** [sorted(iterable, key=...)] *)

(** Python's [sorted] is stable: elements whose keys compare equal keep
    their order.  [leb a b] tells that the key of [b] is not smaller than
    the key of [a]. *)
Fixpoint insert_by {A} (leb : A -> A -> bool) (x : A) (l : list A)
    : list A :=
  match l with
  | [] => [x]
  | y :: l' => if leb x y then x :: l else y :: insert_by leb x l'
  end.

Fixpoint sort_by {A} (leb : A -> A -> bool) (l : list A) : list A :=
  match l with
  | [] => []
  | x :: l' => insert_by leb x (sort_by leb l')
  end.

(** The order of the keys [(l.descriptor_id, l.name)]: tuples compare by
    their first components, and by their second ones when the first are
    equal. *)
Definition report_key_leb (a b : Linter.t) : bool :=
  match String.compare (Linter.descriptor_id a) (Linter.descriptor_id b) with
  | Lt => true
  | Gt => false
  | Eq => String.leb (Linter.name a) (Linter.name b)
  end.

(** Line 186 of [run]: the linters sorted before the reports are made. *)
Definition sort_for_reports (self : Megalinter) : Megalinter :=
  set_linters self (sort_by report_key_leb (linters self)).

(** ** [load_linters], [compute_file_extensions] *)

(** A linter as the factory hands it to [load_linters]: the attributes
    above, and those read when the linters are loaded. *)
Module Candidate.
Record t : Type := mk {
  linter : Linter.t;
  disabled : bool;
  cli_lint_mode : string;
  processing_order : Z;
  file_extensions : list string;
  file_names_regex : list string
}.
End Candidate.





(** [list(dict.fromkeys(l))]: the elements of [l], each once, in the order
    in which they first occur. *)
Definition fromkeys_step (keys : list string) (k : string) : list string :=
  if str_in k keys then keys else keys ++ [k].

Definition fromkeys (l : list string) : list string :=
  fold_left fromkeys_step l [].

(** [compute_file_extensions]: [self.file_extensions] and
    [self.file_names_regex]. *)
Definition compute_file_extensions (linters : list Candidate.t)
    : list string * list string :=
  (fromkeys (flat_map Candidate.file_extensions linters),
   fromkeys (flat_map Candidate.file_names_regex linters)).

(** ** [manage_default_linter_activation] *)

(** The configuration: variables and their values, read as strings. *)
Definition config : Type := list (string * string).

(** [config.get(k)] *)
Fixpoint config_get (c : config) (k : string) : option string :=
  match c with
  | [] => None
  | (k', v) :: c' => if (k' =? k)%string then Some v else config_get c' k
  end.

(** [config.get(k) == "true"] *)
Definition config_is_true (c : config) (k : string) : bool :=
  match config_get c k with
  | Some v => (v =? "true")%string
  | None => false
  end.

(** A legacy [VALIDATE_...] variable, other than [VALIDATE_ALL_CODEBASE]. *)
Definition legacy_validate_var (env_var : string) : bool :=
  (startswith env_var "VALIDATE_"
   && negb (env_var =? "VALIDATE_ALL_CODEBASE")%string)%bool.

(** [manage_default_linter_activation]: the value it leaves in
    [self.default_linter_activation], which holds [default] when it is
    called. *)
Definition manage_default_linter_activation
    (enable_descriptors enable_linters : list string) (c : config)
    (default : bool) : bool :=
  let default :=
    if ((0 <? Z.of_nat (length enable_descriptors))
        || (0 <? Z.of_nat (length enable_linters)))%bool
    then false else default in
  fold_left
    (fun default env_var =>
       if legacy_validate_var env_var
       then if config_is_true c env_var then false else default
       else default)
    (map fst c) default.

(** ** [list_git_ignored_files] *)

(** The paths [git] lists as ignored, made patterns under [dirpath] (the
    real path of the repository) and sorted.  [lines] is the output of
    [git ls-files], line by line. *)
Definition list_git_ignored_files (dirpath : string) (lines : list string)
    : list string :=
  let ignored_files :=
    map (fun x => if endswith_sep x then x +s "**" else x) lines in
  let ignored_files := map (fun x => path_join dirpath x) ignored_files in
  py_sorted ignored_files.

(** ** [initialize_output]: the report folder *)

(** [needle in hay], on strings. *)
Fixpoint str_contains (needle hay : string) : bool :=
  (String.prefix needle hay
   || match hay with
      | EmptyString => false
      | String _ hay' => str_contains needle hay'
      end)%bool.

(** [p[:i]] and [p[i:]] for [i = p.rfind("/") + 1]: the path up to its last
    slash, and what follows it ([os.path.basename]). *)
Fixpoint head_of (p : string) : string :=
  match p with
  | EmptyString => ""
  | String c p' =>
      if str_contains "/" p' then String c (head_of p')
      else if Ascii.eqb c "/" then "/" else ""
  end.

Fixpoint basename (p : string) : string :=
  match p with
  | EmptyString => ""
  | String c p' =>
      if str_contains "/" p' then basename p'
      else if Ascii.eqb c "/" then p' else p
  end.

(** [s.rstrip("/")] *)
Fixpoint rstrip_sep (s : string) : string :=
  match s with
  | EmptyString => ""
  | String c s' =>
      let r := rstrip_sep s' in
      if (Ascii.eqb c "/" && (r =? "")%string)%bool then "" else String c r
  end.

(** [s == "/" * len(s)] *)
Fixpoint all_sep (s : string) : bool :=
  match s with
  | EmptyString => true
  | String c s' => (Ascii.eqb c "/" && all_sep s')%bool
  end.

(** [os.path.dirname] of [posixpath]. *)
Definition dirname (p : string) : string :=
  let head := head_of p in
  if (negb (head =? "")%string && negb (all_sep head))%bool
  then rstrip_sep head
  else head.

(** [config.get(k, default)] *)
Definition config_get_default (c : config) (k default : string) : string :=
  match config_get c k with
  | Some v => v
  | None => default
  end.

(** [config.set(k, v)] *)
Fixpoint config_set (c : config) (k v : string) : config :=
  match c with
  | [] => [(k, v)]
  | (k', v') :: c' =>
      if (k' =? k)%string then (k', v) :: c' else (k', v') :: config_set c' k v
  end.

(** Lines 692-713 of [initialize_output]: [self.report_folder] and the
    configuration, as [--output] leaves them.  [report_folder_name] is
    [DEFAULT_REPORT_FOLDER_NAME] of [megalinter.constants]. *)
Definition initialize_output (isdir : string -> bool)
    (report_folder_name github_workspace : string)
    (arg_output : option string) (c : config) : string * config :=
  let report_folder :=
    config_get_default c "REPORT_OUTPUT_FOLDER"
      (config_get_default c "OUTPUT_FOLDER"
         (github_workspace +s sep +s report_folder_name)) in
  match arg_output with
  | Some output =>
      if str_contains ".sarif" output
      then if str_contains "/" output
           then (dirname output,
                 config_set c "SARIF_REPORTER_FILE_NAME" (basename output))
           else (report_folder,
                 config_set c "SARIF_REPORTER_FILE_NAME" output)
      else if isdir output
           then (output, c)
           else (report_folder, c)
  | None => (report_folder, c)
  end.

(** * Properties *)

(** ** Result aggregation *)

Section Aggregation.

(** All the branches of one turn of the aggregation loop. *)
Ltac update_status_cases self l :=
  unfold update_status;
  destruct (Linter.number_fixed l >? 0), (Linter.return_code l >? 0),
    (negb (Linter.status l =? "success")%string),
    (Linter.return_code l =? 0), (status self =? "success")%string.

Lemma update_status_return_code self l :
  return_code (update_status self l) =
  if positive (Linter.return_code l) then Linter.return_code l
  else return_code self.
Proof.
  unfold positive. update_status_cases self l;
    reflexivity.
Qed.

Lemma update_status_status self l :
  status (update_status self l) =
  if blocking_issue l then "error"
  else if ignored_issue l
       then if (status self =? "success")%string then "warning"
            else status self
       else status self.
Proof.
  unfold blocking_issue, ignored_issue. update_status_cases self l;
    reflexivity.
Qed.

Lemma update_status_has_updated_sources self l :
  has_updated_sources (update_status self l) =
  if Linter.number_fixed l >? 0 then 1 else has_updated_sources self.
Proof.
  update_status_cases self l;
    reflexivity.
Qed.

Lemma update_status_frame self l :
  cli (update_status self l) = cli self /\
  fail_if_updated_sources (update_status self l)
  = fail_if_updated_sources self.
Proof.
  update_status_cases self l;
    split; reflexivity.
Qed.

(** The exit code after the loop is the last strictly positive return
    code, or the one the loop started with. *)
Lemma fold_return_code ls : forall self,
  return_code (fold_left update_status ls self) =
  match find (fun l => positive (Linter.return_code l)) (rev ls) with
  | Some l => Linter.return_code l
  | None => return_code self
  end.
Proof.
  induction ls as [|l ls IH] using rev_ind; intros self; [reflexivity|].
  rewrite fold_left_app, rev_app_distr. simpl.
  rewrite update_status_return_code.
  destruct (positive (Linter.return_code l)); [reflexivity|apply IH].
Qed.

Lemma fold_status ls : forall self,
  status (fold_left update_status ls self) =
  if existsb blocking_issue ls then "error"
  else if existsb ignored_issue ls
       then if (status self =? "success")%string then "warning"
            else status self
       else status self.
Proof.
  induction ls as [|l ls IH]; intros self; [reflexivity|].
  simpl. rewrite IH, update_status_status.
  destruct (blocking_issue l) eqn:Hb; simpl.
  - destruct (existsb blocking_issue ls), (existsb ignored_issue ls);
      reflexivity.
  - destruct (existsb blocking_issue ls); [reflexivity|].
    destruct (ignored_issue l) eqn:Hi; simpl.
    + destruct (status self =? "success")%string eqn:Hs; simpl.
      * destruct (existsb ignored_issue ls); reflexivity.
      * rewrite Hs. destruct (existsb ignored_issue ls); reflexivity.
    + reflexivity.
Qed.

Lemma fold_has_updated_sources ls : forall self,
  has_updated_sources (fold_left update_status ls self) =
  if existsb (fun l => Linter.number_fixed l >? 0) ls then 1
  else has_updated_sources self.
Proof.
  induction ls as [|l ls IH]; intros self; [reflexivity|].
  simpl. rewrite IH, update_status_has_updated_sources.
  destruct (Linter.number_fixed l >? 0); simpl;
    [destruct (existsb _ ls)|]; reflexivity.
Qed.

Lemma fold_frame ls : forall self,
  cli (fold_left update_status ls self) = cli self /\
  fail_if_updated_sources (fold_left update_status ls self)
  = fail_if_updated_sources self.
Proof.
  induction ls as [|l ls IH]; intros self; [split; reflexivity|].
  simpl. destruct (IH (update_status self l)) as [-> ->].
  apply update_status_frame.
Qed.

Lemma blocking_issue_spec l :
  blocking_issue l = true <->
  Linter.status l <> "success" /\ Linter.return_code l <> 0.
Proof.
  unfold blocking_issue.
  rewrite andb_true_iff, !negb_true_iff, String.eqb_neq, Z.eqb_neq.
  reflexivity.
Qed.

Lemma ignored_issue_spec l :
  ignored_issue l = true <->
  Linter.status l <> "success" /\ Linter.return_code l = 0.
Proof.
  unfold ignored_issue.
  rewrite andb_true_iff, negb_true_iff, String.eqb_neq, Z.eqb_eq.
  reflexivity.
Qed.

Lemma existsb_false_iff {A} (p : A -> bool) l :
  existsb p l = false <-> forall x, In x l -> p x = false.
Proof.
  split.
  - intros H x Hx. destruct (p x) eqn:Hp; [|reflexivity].
    rewrite <- H. symmetry. apply existsb_exists. eauto.
  - intros H. destruct (existsb p l) eqn:He; [|reflexivity].
    apply existsb_exists in He as [x [Hx Hp]].
    rewrite (H x Hx) in Hp. discriminate.
Qed.

End Aggregation.

(** C2 as stated fails: with return codes 3 then 1 the exit code is 1, the
    code of the last blocking linter, and not the maximum 3. *)
Lemma exit_code_is_not_the_maximum :
  let ls := [finished "A" "X" "error" 3 0; finished "B" "X" "error" 1 0] in
  max_nonzero_return_code ls = 3 /\
  return_code (aggregate (init "/tmp/lint" true ls false false)) = 1 /\
  return_code (aggregate (init "/tmp/lint" true ls false false))
  <> max_nonzero_return_code ls.
Proof. cbv. repeat split; discriminate. Qed.

(** C2, amended: after the aggregation loop the exit code is the return code
    of the last linter, in iteration order, whose return code is strictly
    positive, and zero when no linter has one. *)
Theorem exit_code_is_last_positive :
  forall ws va ls fail is_cli,
    return_code (aggregate (init ws va ls fail is_cli))
    = last_return_code positive ls.
Proof.
  intros. unfold aggregate, last_return_code. simpl linters.
  rewrite fold_return_code. reflexivity.
Qed.

(** C3 as stated fails on its exit-code part: a negative return code is
    non-zero, yet the loop does not take it as the exit code. *)
Lemma exit_code_skips_negative_codes :
  let ls := [finished "A" "X" "error" 2 0; finished "B" "X" "error" (-1) 0] in
  last_return_code nonzero ls = -1 /\
  return_code (aggregate (init "/tmp/lint" true ls false false)) = 2 /\
  return_code (aggregate (init "/tmp/lint" true ls false false))
  <> last_return_code nonzero ls.
Proof. cbv. repeat split; discriminate. Qed.

(** C3, amended: the overall status is ["error"] exactly when some linter
    has a status other than ["success"] and a non-zero return code;
    otherwise it is ["warning"] exactly when some linter has a status other
    than ["success"] (with return code zero); it is ["success"] exactly when
    every linter has status ["success"]; the loop never leaves ["error"];
    and the exit code is the return code of the last linter whose return
    code is strictly positive (last one wins), zero when there is none. *)
Theorem aggregate_status_and_exit_code :
  forall ws va ls fail is_cli,
    let final := aggregate (init ws va ls fail is_cli) in
    (status final = "error" <->
       exists l, In l ls /\ Linter.status l <> "success"
                 /\ Linter.return_code l <> 0) /\
    ((forall l, In l ls -> Linter.status l <> "success" ->
                Linter.return_code l = 0) ->
       (status final = "warning" <->
          exists l, In l ls /\ Linter.status l <> "success"
                    /\ Linter.return_code l = 0)) /\
    (status final = "success" <->
       forall l, In l ls -> Linter.status l = "success") /\
    (forall self l, status self = "error" ->
       status (update_status self l) = "error") /\
    return_code final = last_return_code positive ls.
Proof.
  intros ws va ls fail is_cli final.
  assert (Hst : status final =
            if existsb blocking_issue ls then "error"
            else if existsb ignored_issue ls then "warning" else "success").
  { unfold final, aggregate. simpl linters. rewrite fold_status. reflexivity. }
  assert (Hb : existsb blocking_issue ls = true <->
               exists l, In l ls /\ Linter.status l <> "success"
                         /\ Linter.return_code l <> 0).
  { rewrite existsb_exists. split; intros [l [Hl H]]; exists l;
      (split; [exact Hl|]); apply blocking_issue_spec; exact H. }
  assert (Hi : existsb ignored_issue ls = true <->
               exists l, In l ls /\ Linter.status l <> "success"
                         /\ Linter.return_code l = 0).
  { rewrite existsb_exists. split; intros [l [Hl H]]; exists l;
      (split; [exact Hl|]); apply ignored_issue_spec; exact H. }
  repeat split.
  - intros He. apply Hb. rewrite Hst in He.
    destruct (existsb blocking_issue ls); [reflexivity|].
    destruct (existsb ignored_issue ls); discriminate.
  - intros H. apply Hb in H. rewrite Hst, H. reflexivity.
  - intros Hw. apply Hi. rewrite Hst in Hw.
    destruct (existsb blocking_issue ls); [discriminate|].
    destruct (existsb ignored_issue ls); [reflexivity|discriminate].
  - intros Hex. rewrite Hst.
    assert (Hnb : existsb blocking_issue ls = false).
    { apply existsb_false_iff. intros l Hl.
      destruct (blocking_issue l) eqn:E; [|reflexivity].
      apply blocking_issue_spec in E as [E1 E2].
      elim E2. apply H; assumption. }
    rewrite Hnb. apply Hi in Hex. rewrite Hex. reflexivity.
  - intros Hs l Hl.
    destruct (String.eqb_spec (Linter.status l) "success") as [|Hne];
      [assumption|].
    exfalso. rewrite Hst in Hs.
    destruct (Z.eq_dec (Linter.return_code l) 0) as [Hz|Hnz].
    + assert (E : existsb ignored_issue ls = true) by (apply Hi; eauto).
      rewrite E in Hs. destruct (existsb blocking_issue ls); discriminate.
    + assert (E : existsb blocking_issue ls = true) by (apply Hb; eauto).
      rewrite E in Hs. discriminate.
  - intros Hall. rewrite Hst.
    assert (E1 : existsb blocking_issue ls = false).
    { apply existsb_false_iff. intros l Hl. unfold blocking_issue.
      rewrite (Hall l Hl). reflexivity. }
    assert (E2 : existsb ignored_issue ls = false).
    { apply existsb_false_iff. intros l Hl. unfold ignored_issue.
      rewrite (Hall l Hl). reflexivity. }
    rewrite E1, E2. reflexivity.
  - intros self l He. rewrite update_status_status, He.
    destruct (blocking_issue l), (ignored_issue l); reflexivity.
  - unfold final, aggregate, last_return_code. simpl linters.
    rewrite fold_return_code. reflexivity.
Qed.

(** C10: a linter whose status is not ["success"] and whose return code is
    strictly negative makes the overall status ["error"] and leaves the exit
    code as it was; a run whose linters are all of this kind (and that has
    at least one) ends with status ["error"] and exit code 0. *)
Theorem negative_return_code_is_error_without_exit_code :
  forall ws va ls fail is_cli,
    Forall (fun l => Linter.status l <> "success"
                     /\ Linter.return_code l < 0) ls ->
    (forall self l, In l ls ->
       status (update_status self l) = "error" /\
       return_code (update_status self l) = return_code self) /\
    (ls <> [] ->
       status (aggregate (init ws va ls fail is_cli)) = "error" /\
       return_code (aggregate (init ws va ls fail is_cli)) = 0).
Proof.
  intros ws va ls fail is_cli Hall.
  rewrite Forall_forall in Hall.
  assert (Hblock : forall l, In l ls -> blocking_issue l = true).
  { intros l Hl. destruct (Hall l Hl) as [Hs Hrc].
    apply blocking_issue_spec. split; [assumption|lia]. }
  assert (Hpos : forall l, In l ls -> positive (Linter.return_code l) = false).
  { intros l Hl. destruct (Hall l Hl) as [_ Hrc].
    unfold positive. destruct (Z.gtb_spec (Linter.return_code l) 0);
      [lia|reflexivity]. }
  split.
  - intros self l Hl.
    rewrite update_status_status, update_status_return_code,
      (Hblock l Hl), (Hpos l Hl).
    split; reflexivity.
  - intros Hne. unfold aggregate. simpl linters.
    rewrite fold_status, fold_return_code. split.
    + destruct ls as [|l ls']; [contradiction|].
      simpl. rewrite (Hblock l (or_introl eq_refl)). reflexivity.
    + destruct (find _ (rev ls)) as [l|] eqn:Hf; [|reflexivity].
      apply find_some in Hf as [Hin Hp].
      apply in_rev in Hin. rewrite (Hpos l Hin) in Hp. discriminate.
Qed.

Lemma negative_return_code_witness :
  let ls := [finished "A" "X" "error" (-1) 0] in
  (forall self l, In l ls ->
     status (update_status self l) = "error" /\
     return_code (update_status self l) = return_code self) /\
  (ls <> [] ->
     status (aggregate (init "/tmp/lint" true ls false true)) = "error" /\
     return_code (aggregate (init "/tmp/lint" true ls false true)) = 0).
Proof.
  apply (negative_return_code_is_error_without_exit_code
           "/tmp/lint" true [finished "A" "X" "error" (-1) 0] false true).
  apply Forall_cons; [split; simpl; [discriminate|lia]|apply Forall_nil].
Defined.

(** ** The verdict *)

(** C9 as stated fails: a linter fixed two files and the policy is enabled,
    but the overall status is ["error"], so [check_results] does not consult
    the policy; with [DISABLE_ERRORS] the process exits with code 0. *)
Lemma mutated_sources_policy_skipped_on_error :
  let ls := [finished "A" "X" "error" 1 2] in
  let self := init "/tmp/lint" true ls true true in
  has_updated_sources (aggregate self) = 1 /\
  fail_if_updated_sources (aggregate self) = true /\
  verdict "true" self = SysExit 0 /\
  ~ blocking (verdict "true" self).
Proof.
  cbv zeta. repeat split.
  intros [code [H Hne]]. vm_compute in H. injection H as <-. apply Hne.
  reflexivity.
Qed.

(** C9, amended: when some linter fixed one or more files and the
    fail-on-mutated-sources policy is enabled, and the overall status
    computed by aggregation is ["success"] or ["warning"] (no linter has both
    a status other than ["success"] and a non-zero return code), the process
    exits with code 1, a blocking failure; this includes the runs in which
    every linter reported ["success"]. *)
Theorem mutated_sources_force_failure :
  forall disable_errors ws va ls is_cli,
    (exists l, In l ls /\ Linter.number_fixed l > 0) ->
    (forall l, In l ls -> Linter.status l <> "success" ->
               Linter.return_code l = 0) ->
    let self := init ws va ls true is_cli in
    (status (aggregate self) = "success"
     \/ status (aggregate self) = "warning") /\
    verdict disable_errors self = SysExit 1 /\
    blocking (verdict disable_errors self).
Proof.
  intros de ws va ls is_cli [l0 [Hin Hfix]] Hnb self.
  assert (E1 : existsb blocking_issue ls = false).
  { apply existsb_false_iff. intros l Hl.
    destruct (blocking_issue l) eqn:E; [|reflexivity].
    apply blocking_issue_spec in E as [Ea Eb]. elim Eb. auto. }
  assert (Hst : status (aggregate self) =
                if existsb ignored_issue ls then "warning" else "success").
  { unfold self, aggregate. simpl linters. rewrite fold_status, E1.
    reflexivity. }
  assert (Hup : has_updated_sources (aggregate self) = 1).
  { unfold self, aggregate. simpl linters.
    rewrite fold_has_updated_sources.
    assert (E : existsb (fun l => Linter.number_fixed l >? 0) ls = true).
    { apply existsb_exists. exists l0. split; [assumption|].
      destruct (Z.gtb_spec (Linter.number_fixed l0) 0); [reflexivity|lia]. }
    rewrite E. reflexivity. }
  assert (Hfail : fail_if_updated_sources (aggregate self) = true).
  { unfold self, aggregate. simpl linters.
    destruct (fold_frame ls (init ws va ls true is_cli)) as [_ ->].
    reflexivity. }
  assert (Hv : verdict de self = SysExit 1).
  { unfold verdict, check_results, check_updated_sources_failure.
    rewrite Hst, Hup, Hfail.
    destruct (existsb ignored_issue ls); reflexivity. }
  repeat split.
  - rewrite Hst. destruct (existsb ignored_issue ls); auto.
  - exact Hv.
  - exists 1. split; [exact Hv|discriminate].
Qed.

Lemma mutated_sources_force_failure_witness :
  let ls := [finished "A" "X" "success" 0 2; finished "B" "X" "success" 0 0] in
  let self := init "/tmp/lint" true ls true true in
  (status (aggregate self) = "success"
   \/ status (aggregate self) = "warning") /\
  verdict "false" self = SysExit 1 /\
  blocking (verdict "false" self).
Proof.
  apply (mutated_sources_force_failure "false" "/tmp/lint" true
           [finished "A" "X" "success" 0 2; finished "B" "X" "success" 0 0]
           true).
  - exists (finished "A" "X" "success" 0 2). split; [left; reflexivity|].
    simpl. lia.
  - intros l [<-|[<-|[]]] H; reflexivity.
Defined.

(** ** Workspace resolution *)

Section Workspace.

Variable isdir : string -> bool.
Variable docker_dir : string.

(** Every rule but that one returns the directory it has tested. *)
Lemma get_workspace_returns_tested_directory arg_input dw gw p :
  get_workspace isdir docker_dir arg_input dw gw = Ok p ->
  isdir p = true \/
  (arg_input = None /\ docker_default_rule isdir docker_dir dw gw = true /\
   p = dw +s docker_dir +s sep +s dw).
Proof.
  unfold get_workspace, docker_default_rule.
  destruct arg_input as [input|].
  - destruct (isdir input) eqn:E1.
    + intros [= <-]. left. exact E1.
    + destruct (isdir (docker_dir +s "/" +s input)) eqn:E2; [|discriminate].
      intros [= <-]. left. exact E2.
  - repeat match goal with
      | |- context [if ?c then _ else _] =>
          let E := fresh "E" in destruct c eqn:E
      end; intros [= <-];
      try (left;
           repeat match goal with
             | H : (_ && _)%bool = true |- _ =>
                 apply andb_true_iff in H; destruct H
             end; assumption).
    right. repeat split.
Qed.

(** Without [--input], a failure is the [FileNotFoundError] whose message
    names the values of DEFAULT_WORKSPACE and GITHUB_WORKSPACE. *)
Lemma get_workspace_failure_names_signals dw gw e :
  get_workspace isdir docker_dir None dw gw = Raise e ->
  e = FileNotFoundError
        ("[Context] Unable to find a workspace to lint " +s nl
         +s "DEFAULT_WORKSPACE: " +s dw +s nl
         +s "GITHUB_WORKSPACE: " +s gw).
Proof.
  unfold get_workspace.
  repeat match goal with
    | |- context [if ?c then _ else _] => destruct c
    end; intros [= <-]; reflexivity.
Qed.

(** With [--input], only the first rule is tried: the two signals are not
    examined, and a failure is the [AssertionError] on the input path. *)
Lemma get_workspace_input_only input dw gw dw' gw' :
  get_workspace isdir docker_dir (Some input) dw gw
  = get_workspace isdir docker_dir (Some input) dw' gw' /\
  (forall e, get_workspace isdir docker_dir (Some input) dw gw = Raise e ->
     e = AssertionError
           ("--input directory not found at " +s docker_dir +s "/" +s input)).
Proof.
  split; [reflexivity|]. simpl.
  destruct (isdir input); [discriminate|].
  destruct (isdir (docker_dir +s "/" +s input)); [discriminate|].
  intros e [= <-]. reflexivity.
Qed.

End Workspace.

(** C1, at the input where the code departs from it: DEFAULT_WORKSPACE is
    [ws], GITHUB_WORKSPACE is empty, [--input] is not given, and the only
    directory is [/tmp/lint/ws].  The rule that tests [/tmp/lint/ws] fires
    and returns [ws/tmp/lint/ws], which is not a directory. *)
Theorem get_workspace_returns_untested_path :
  let isdir := fun p => (p =? "/tmp/lint/ws")%string in
  get_workspace isdir "/tmp/lint" None "ws" "" = Ok "ws/tmp/lint/ws" /\
  isdir "ws/tmp/lint/ws" = false /\
  isdir "/tmp/lint/ws" = true.
Proof. repeat split. Qed.

(** ** Grouping for the pool *)

Section Grouping.

Lemma dict_get_absent (d : dict) k :
  ~ In k (map fst d) -> dict_get d k = [].
Proof.
  induction d as [|[k' v] d IH]; simpl; intros H; [reflexivity|].
  destruct (String.eqb_spec k' k) as [->|Hne]; [tauto|].
  apply IH. tauto.
Qed.

Lemma dict_get_present (d : dict) k g :
  NoDup (map fst d) -> In (k, g) d -> dict_get d k = g.
Proof.
  induction d as [|[k' v] d IH]; simpl; intros Hnd Hin; [contradiction|].
  inversion Hnd as [|? ? Hnotin Hnd']; subst.
  destruct Hin as [[= -> ->]|Hin].
  - rewrite String.eqb_refl. reflexivity.
  - destruct (String.eqb_spec k' k) as [->|Hne]; [|auto].
    elim Hnotin. apply (in_map fst) in Hin. exact Hin.
Qed.

Lemma dict_set_keys_present (d : dict) k v :
  In k (map fst d) -> map fst (dict_set d k v) = map fst d.
Proof.
  induction d as [|[k' v'] d IH]; simpl; intros H; [contradiction|].
  destruct (String.eqb_spec k' k) as [->|Hne]; simpl; [reflexivity|].
  f_equal. apply IH. destruct H; [contradiction|assumption].
Qed.

Lemma dict_set_keys_absent (d : dict) k v :
  ~ In k (map fst d) -> map fst (dict_set d k v) = map fst d ++ [k].
Proof.
  induction d as [|[k' v'] d IH]; simpl; intros H; [reflexivity|].
  destruct (String.eqb_spec k' k) as [->|Hne]; simpl; [tauto|].
  f_equal. apply IH. tauto.
Qed.

Lemma dict_set_entries (d : dict) k v k' g :
  NoDup (map fst d) ->
  In (k', g) (dict_set d k v) ->
  (k' = k /\ g = v) \/ (k' <> k /\ In (k', g) d).
Proof.
  induction d as [|[k0 v0] d IH]; simpl; intros Hnd.
  - intros [[= <- <-]|[]]. left. split; reflexivity.
  - inversion Hnd as [|? ? Hnotin Hnd']; subst.
    destruct (String.eqb_spec k0 k) as [->|Hne]; simpl.
    + intros [[= <- <-]|Hin]; [left; split; reflexivity|].
      right. split; [|right; exact Hin].
      intros ->. apply Hnotin. apply (in_map fst) in Hin. exact Hin.
    + intros [[= <- <-]|Hin].
      * right. split; [assumption|left; reflexivity].
      * destruct (IH Hnd' Hin) as [?|[? ?]]; [left; assumption|].
        right. split; [assumption|right; assumption].
Qed.

(** What the grouping loop maintains: one entry per conflict class met so
    far, holding the linters of that class met so far, in order. *)
Lemma group_step_invariant (d : dict) (p : list Linter.t) (l : Linter.t) :
  NoDup (map fst d) ->
  (forall k, In k (map fst d) <-> In k (map Linter.descriptor_id p)) ->
  (forall k g, In (k, g) d -> g = of_descriptor k p) ->
  NoDup (map fst (group_step d l)) /\
  (forall k, In k (map fst (group_step d l))
             <-> In k (map Linter.descriptor_id (p ++ [l]))) /\
  (forall k g, In (k, g) (group_step d l) -> g = of_descriptor k (p ++ [l])).
Proof.
  intros Hnd Hkeys Hval. unfold group_step.
  set (k0 := Linter.descriptor_id l).
  assert (Hsnoc : forall k, of_descriptor k (p ++ [l]) =
            of_descriptor k p
            ++ (if (k0 =? k)%string then [l] else [])).
  { intros k. unfold of_descriptor. rewrite filter_app. reflexivity. }
  destruct (in_dec string_dec k0 (map fst d)) as [Hin|Hnotin].
  - rewrite dict_set_keys_present by assumption.
    split; [assumption|]. split.
    + intros k. rewrite map_app, in_app_iff, Hkeys. simpl. fold k0.
      split; [tauto|]. intros [H|[<-|[]]]; [assumption|].
      apply Hkeys. assumption.
    + intros k g Hg. apply dict_set_entries in Hg; [|assumption].
      rewrite Hsnoc.
      destruct Hg as [[-> ->]|[Hne Hg]].
      * rewrite String.eqb_refl.
        apply in_map_iff in Hin as [[k1 g1] [Hk1 Hin1]]. simpl in Hk1. subst k1.
        rewrite (dict_get_present d k0 g1 Hnd Hin1).
        rewrite (Hval k0 g1 Hin1). reflexivity.
      * destruct (String.eqb_spec k0 k) as [->|_]; [contradiction|].
        rewrite app_nil_r. apply Hval. assumption.
  - rewrite dict_set_keys_absent by assumption.
    split; [|split].
    + apply NoDup_app; [assumption|repeat constructor; simpl; tauto|].
      intros k Hk [<-|[]]. contradiction.
    + intros k. rewrite map_app, !in_app_iff, Hkeys. reflexivity.
    + intros k g Hg. apply dict_set_entries in Hg; [|assumption].
      rewrite Hsnoc.
      destruct Hg as [[-> ->]|[Hne Hg]].
      * rewrite String.eqb_refl, (dict_get_absent d k0 Hnotin).
        assert (E : of_descriptor k0 p = []).
        { unfold of_descriptor.
          destruct (filter _ p) as [|x xs] eqn:Ef; [reflexivity|].
          assert (Hx : In x (filter
                     (fun l' => (Linter.descriptor_id l' =? k0)%string) p))
            by (rewrite Ef; left; reflexivity).
          apply filter_In in Hx as [Hxp Hxk].
          apply String.eqb_eq in Hxk.
          elim Hnotin. apply Hkeys. rewrite <- Hxk.
          apply in_map. assumption. }
        rewrite E. reflexivity.
      * destruct (String.eqb_spec k0 k) as [->|_]; [contradiction|].
        rewrite app_nil_r. apply Hval. assumption.
Qed.

Lemma linters_by_descriptor_invariant (active : list Linter.t) :
  let d := linters_by_descriptor active in
  NoDup (map fst d) /\
  (forall k, In k (map fst d) <-> In k (map Linter.descriptor_id active)) /\
  (forall k g, In (k, g) d -> g = of_descriptor k active).
Proof.
  unfold linters_by_descriptor.
  induction active as [|l p IH] using rev_ind.
  - simpl. split; [constructor|]. split; [tauto|contradiction].
  - rewrite fold_left_app. simpl.
    destruct IH as [H1 [H2 H3]]. apply group_step_invariant; assumption.
Qed.

Lemma values_from_keys (d : dict) (f : string -> list Linter.t) :
  (forall k g, In (k, g) d -> g = f k) ->
  map snd d = map f (map fst d).
Proof.
  induction d as [|[k g] d IH]; simpl; intros H; [reflexivity|].
  f_equal; [apply H; left; reflexivity|].
  apply IH. intros k' g' Hin. apply H. right. assumption.
Qed.

Lemma of_descriptor_member d ls l :
  In l (of_descriptor d ls) -> Linter.descriptor_id l = d.
Proof.
  unfold of_descriptor. intros H. apply filter_In in H as [_ H].
  apply String.eqb_eq. assumption.
Qed.

(** The groups, flattened, are the active linters in another order. *)
Lemma group_step_permutation (d : dict) l :
  Permutation (concat (map snd (group_step d l))) (concat (map snd d) ++ [l]).
Proof.
  unfold group_step.
  induction d as [|[k g] d IH]; simpl.
  - reflexivity.
  - destruct (String.eqb_spec k (Linter.descriptor_id l)) as [->|Hne]; simpl.
    + rewrite <- !app_assoc. apply Permutation_app_head.
      apply Permutation_app_comm.
    + rewrite <- app_assoc. apply Permutation_app_head. exact IH.
Qed.

Lemma linter_groups_permutation active flag :
  Permutation (concat (linter_groups active flag)) active.
Proof.
  unfold linter_groups. destruct flag.
  - unfold linters_by_descriptor.
    induction active as [|l p IH] using rev_ind; [reflexivity|].
    rewrite fold_left_app. simpl.
    rewrite group_step_permutation. apply Permutation_app_tail. exact IH.
  - induction active as [|l p IH]; simpl; [reflexivity|].
    constructor. exact IH.
Qed.

End Grouping.

(** The loop of [run] selects the active linters, in order, and tells
    whether one of them applies fixes. *)
Lemma select_active_spec self :
  select_active self =
  (filter Linter.is_active (linters self),
   existsb Linter.apply_fixes (filter Linter.is_active (linters self))).
Proof.
  unfold select_active.
  assert (H : forall ls acc b,
    fold_left active_step ls (acc, b) =
    (acc ++ filter Linter.is_active ls,
     (b || existsb Linter.apply_fixes (filter Linter.is_active ls))%bool)).
  { induction ls as [|l ls IH]; intros acc b; simpl.
    - rewrite app_nil_r, orb_false_r. reflexivity.
    - destruct (Linter.is_active l); simpl.
      + rewrite IH, <- app_assoc. simpl.
        destruct (Linter.apply_fixes l), b; reflexivity.
      + apply IH. }
  rewrite H. reflexivity.
Qed.

(** C5: when an active linter applies fixes, the groups are one per
    distinct conflict class, each holding, in order, all the active linters
    of its class, so that two linters of one class are never in different
    groups; when none applies fixes, every active linter is a group of its
    own.  On A (class 1, fixes), B (class 1, no fixes), C (class 2, fixes)
    the groups are [A, B] and [C]. *)
Theorem linter_groups_by_conflict_class :
  forall active,
    let groups := linter_groups active (existsb Linter.apply_fixes active) in
    (existsb Linter.apply_fixes active = true ->
       (exists ids,
          NoDup ids /\
          (forall d, In d ids <-> In d (map Linter.descriptor_id active)) /\
          groups = map (fun d => of_descriptor d active) ids) /\
       (forall g1 g2 l1 l2,
          In g1 groups -> In g2 groups -> In l1 g1 -> In l2 g2 ->
          Linter.descriptor_id l1 = Linter.descriptor_id l2 -> g1 = g2)) /\
    (existsb Linter.apply_fixes active = false ->
       groups = map (fun l => [l]) active) /\
    (let A := scheduled "A" "1" true in
     let B := scheduled "B" "1" false in
     let C := scheduled "C" "2" true in
     linter_groups [A; B; C] (existsb Linter.apply_fixes [A; B; C])
     = [[A; B]; [C]]) /\
    (let A := scheduled "A" "1" false in
     let B := scheduled "B" "1" false in
     let C := scheduled "C" "2" false in
     linter_groups [A; B; C] (existsb Linter.apply_fixes [A; B; C])
     = [[A]; [B]; [C]]).
Proof.
  intros active groups. split; [|split; [|split; reflexivity]].
  - intros Hfix. unfold groups, linter_groups. rewrite Hfix.
    destruct (linters_by_descriptor_invariant active) as [Hnd [Hkeys Hval]].
    assert (Heq : map snd (linters_by_descriptor active) =
                  map (fun d => of_descriptor d active)
                      (map fst (linters_by_descriptor active)))
      by (apply values_from_keys; assumption).
    split.
    + exists (map fst (linters_by_descriptor active)).
      split; [assumption|]. split; assumption.
    + intros g1 g2 l1 l2 H1 H2 Hl1 Hl2 Hd.
      rewrite Heq in H1, H2.
      apply in_map_iff in H1 as [d1 [<- _]].
      apply in_map_iff in H2 as [d2 [<- _]].
      apply of_descriptor_member in Hl1, Hl2.
      congruence.
  - intros Hfix. unfold groups, linter_groups. rewrite Hfix. reflexivity.
Qed.

Lemma linter_groups_witness :
  let A := scheduled "A" "1" true in
  let B := scheduled "B" "1" false in
  let C := scheduled "C" "2" true in
  linter_groups [A; B; C] true = [[A; B]; [C]] /\
  exists ids,
    NoDup ids /\
    (forall d, In d ids <-> In d (map Linter.descriptor_id [A; B; C])) /\
    linter_groups [A; B; C] true
    = map (fun d => of_descriptor d [A; B; C]) ids.
Proof.
  intros A B C. split; [reflexivity|].
  destruct (linter_groups_by_conflict_class [A; B; C]) as [H _].
  destruct (H eq_refl) as [Hex _]. exact Hex.
Defined.

(** ** Reconciliation *)

Section Reconciliation.

Lemma NoDup_map_inj {A B} (f : A -> B) (xs : list A) a b :
  NoDup (map f xs) -> In a xs -> In b xs -> f a = f b -> a = b.
Proof.
  induction xs as [|x xs IH]; simpl; intros Hnd Ha Hb Hf; [contradiction|].
  inversion Hnd as [|? ? Hnotin Hnd']; subst.
  destruct Ha as [->|Ha], Hb as [->|Hb]; auto.
  - elim Hnotin. rewrite Hf. apply in_map. assumption.
  - elim Hnotin. rewrite <- Hf. apply in_map. assumption.
Qed.

Lemma NoDup_map_filter {A B} (f : A -> B) (p : A -> bool) (xs : list A) :
  NoDup (map f xs) -> NoDup (map f (filter p xs)).
Proof.
  induction xs as [|x xs IH]; simpl; intros Hnd; [constructor|].
  inversion Hnd as [|? ? Hnotin Hnd']; subst.
  destruct (p x); simpl; [|auto].
  constructor; [|auto].
  intros Hin. apply Hnotin.
  apply in_map_iff in Hin as [y [<- Hy]].
  apply in_map. apply filter_In in Hy. tauto.
Qed.

Lemma find_append {A} (p : A -> bool) (xs ys : list A) :
  find p (xs ++ ys) =
  match find p xs with Some x => Some x | None => find p ys end.
Proof.
  induction xs as [|x xs IH]; simpl; [reflexivity|].
  destruct (p x); [reflexivity|exact IH].
Qed.

Lemma replace_by_name_length ls u :
  length (replace_by_name ls u) = length ls.
Proof.
  induction ls as [|l ls IH]; simpl; [reflexivity|].
  destruct (Linter.name l =? Linter.name u)%string; simpl; congruence.
Qed.

Lemma replace_by_name_names ls u :
  map Linter.name (replace_by_name ls u) = map Linter.name ls.
Proof.
  induction ls as [|l ls IH]; simpl; [reflexivity|].
  destruct (String.eqb_spec (Linter.name l) (Linter.name u)) as [E|_]; simpl;
    congruence.
Qed.

(** One replacement: every entry is the old one, or the returned linter,
    whole, at the place of an entry of its name. *)
Lemma replace_by_name_wholesale ls u :
  Forall2 (fun old new =>
             new = old \/ (new = u /\ Linter.name new = Linter.name old))
          ls (replace_by_name ls u).
Proof.
  induction ls as [|l ls IH]; simpl; [constructor|].
  destruct (String.eqb_spec (Linter.name l) (Linter.name u)) as [E|_].
  - constructor; [right; split; [reflexivity|congruence]|].
    clear. induction ls; constructor; auto.
  - constructor; [left; reflexivity|exact IH].
Qed.

Lemma replace_by_name_unique ls u :
  NoDup (map Linter.name ls) ->
  replace_by_name ls u =
  map (fun l => if (Linter.name l =? Linter.name u)%string then u else l) ls.
Proof.
  induction ls as [|l ls IH]; simpl; intros Hnd; [reflexivity|].
  inversion Hnd as [|? ? Hnotin Hnd']; subst.
  destruct (String.eqb_spec (Linter.name l) (Linter.name u)) as [E|_].
  - f_equal. clear IH. induction ls as [|l' ls IH']; simpl; [reflexivity|].
    inversion Hnd' as [|? ? Hnotin' Hnd'']; subst.
    destruct (String.eqb_spec (Linter.name l') (Linter.name u)) as [E'|_].
    + elim Hnotin. left. congruence.
    + f_equal. apply IH'.
      * constructor; [|assumption]. intros H. apply Hnotin. right. exact H.
      * intros H. apply Hnotin. right. exact H.
      * assumption.
  - f_equal. auto.
Qed.

Lemma reconcile_concat ls pool_results :
  reconcile ls pool_results = fold_left replace_by_name (concat pool_results) ls.
Proof.
  unfold reconcile. revert ls.
  induction pool_results as [|r rs IH]; intros ls; simpl; [reflexivity|].
  rewrite fold_left_app. apply IH.
Qed.

(** The registry after all the replacements, when names identify its
    entries: each entry is the last returned linter of its name, or itself
    when none was returned. *)
Lemma fold_replace_by_name us : forall ls,
  NoDup (map Linter.name ls) ->
  fold_left replace_by_name us ls =
  map (fun l =>
         match find (fun u => (Linter.name u =? Linter.name l)%string) (rev us)
         with Some u => u | None => l end) ls.
Proof.
  induction us as [|u us IH]; intros ls Hnd; simpl.
  - symmetry. apply map_id.
  - rewrite IH by (rewrite replace_by_name_names; assumption).
    rewrite replace_by_name_unique by assumption.
    rewrite map_map. apply map_ext. intros l.
    rewrite find_append. simpl.
    destruct (String.eqb_spec (Linter.name l) (Linter.name u)) as [E|Hne].
    + rewrite E.
      destruct (find _ (rev us)); [reflexivity|].
      rewrite String.eqb_refl. reflexivity.
    + destruct (find _ (rev us)); [reflexivity|].
      destruct (String.eqb_spec (Linter.name u) (Linter.name l)) as [E'|_];
        [elim Hne; congruence|reflexivity].
Qed.

Lemma find_by_name_unique (us : list Linter.t) u :
  NoDup (map Linter.name us) -> In u us ->
  find (fun x => (Linter.name x =? Linter.name u)%string) us = Some u.
Proof.
  intros Hnd Hin.
  destruct (find _ us) as [x|] eqn:Hf.
  - apply find_some in Hf as [Hx Hn]. apply String.eqb_eq in Hn.
    f_equal. apply (NoDup_map_inj Linter.name us); assumption.
  - apply (find_none _ _ Hf) in Hin. rewrite String.eqb_refl in Hin.
    discriminate.
Qed.

Lemma fold_replace_wholesale us : forall ls,
  Forall2 (fun old new =>
             new = old \/ (In new us /\ Linter.name new = Linter.name old))
          ls (fold_left replace_by_name us ls).
Proof.
  induction us as [|u us IH]; intros ls; simpl.
  - induction ls; constructor; auto.
  - specialize (IH (replace_by_name ls u)).
    pose proof (replace_by_name_wholesale ls u) as H1.
    revert H1 IH. generalize (replace_by_name ls u) as ms.
    generalize (fold_left replace_by_name us) as F. intros F ms H1.
    generalize (F ms) as ns. clear F.
    induction H1 as [|old mid ls ms Hom H1 IH1]; intros ns H2.
    + inversion H2. constructor.
    + inversion H2 as [|? new ? ns' Hmn H2']; subst.
      constructor; [|apply IH1; assumption].
      destruct Hmn as [->|[Hin Hn]].
      * destruct Hom as [->|[-> Hn']]; [left; reflexivity|].
        right. split; [left; reflexivity|assumption].
      * right. split; [right; assumption|].
        destruct Hom as [->|[_ Hn']]; congruence.
Qed.

End Reconciliation.

(** C6: reconciliation puts a returned linter, whole, at the place of the
    registry entry of its name, whatever groups are returned, and keeps the
    length of the registry.  In a pool run over a registry whose names
    identify its linters, with workers that return the linters they were
    given under the same names, the registry keeps its length and names,
    the entry of every inactive linter is untouched, and the entry of every
    active linter is the object the pool returned for it. *)
Theorem reconcile_replaces_wholesale :
  forall (run_linters : list Linter.t -> list Linter.t) self flag,
    let active := filter Linter.is_active (linters self) in
    let groups := linter_groups active flag in
    let final :=
      linters (process_linters_parallel run_linters self active flag) in
    NoDup (map Linter.name (linters self)) ->
    (forall g, map Linter.name (run_linters g) = map Linter.name g) ->
    (forall ls pool_results,
       length (reconcile ls pool_results) = length ls /\
       Forall2 (fun old new =>
                  new = old \/
                  (In new (concat pool_results)
                   /\ Linter.name new = Linter.name old))
               ls (reconcile ls pool_results)) /\
    length final = length (linters self) /\
    map Linter.name final = map Linter.name (linters self) /\
    (forall i l, nth_error (linters self) i = Some l ->
       Linter.is_active l = false -> nth_error final i = Some l) /\
    (forall i l, nth_error (linters self) i = Some l ->
       Linter.is_active l = true ->
       exists g j u,
         In g groups /\ nth_error g j = Some l /\
         nth_error (run_linters g) j = Some u /\
         nth_error final i = Some u).
Proof.
  intros run_linters self flag active groups final Hnd Hrun.
  assert (Hgen : forall ls pool_results,
    length (reconcile ls pool_results) = length ls /\
    Forall2 (fun old new =>
               new = old \/
               (In new (concat pool_results)
                /\ Linter.name new = Linter.name old))
            ls (reconcile ls pool_results)).
  { intros ls rs. rewrite reconcile_concat.
    pose proof (fold_replace_wholesale (concat rs) ls) as H.
    split; [|exact H]. symmetry. eapply Forall2_length. exact H. }
  set (us := concat (map run_linters groups)).
  assert (Hfinal : final =
    map (fun l =>
           match find (fun u => (Linter.name u =? Linter.name l)%string)
                      (rev us)
           with Some u => u | None => l end) (linters self)).
  { unfold final, process_linters_parallel. simpl linters.
    rewrite reconcile_concat. apply fold_replace_by_name. assumption. }
  assert (Hnames : map Linter.name us = map Linter.name (concat groups)).
  { unfold us. rewrite !concat_map. f_equal.
    rewrite map_map. apply map_ext. intros g. apply Hrun. }
  assert (Hperm : Permutation (concat groups) active)
    by apply linter_groups_permutation.
  assert (Hndact : NoDup (map Linter.name active))
    by (apply NoDup_map_filter; assumption).
  assert (Hndus : NoDup (map Linter.name (rev us))).
  { rewrite map_rev. apply (Permutation_NoDup (l := map Linter.name us)).
    - apply Permutation_rev.
    - rewrite Hnames.
      apply (Permutation_NoDup (l := map Linter.name active));
        [|assumption].
      apply Permutation_map. symmetry. assumption. }
  split; [exact Hgen|].
  split; [apply Hgen|].
  split.
  { rewrite Hfinal, map_map. apply map_ext_in. intros l _.
    destruct (find _ (rev us)) as [u|] eqn:Hf; [|reflexivity].
    apply find_some in Hf as [_ Hf]. apply String.eqb_eq. assumption. }
  split.
  - intros i l Hi Hina. rewrite Hfinal.
    erewrite map_nth_error by eassumption.
    destruct (find _ (rev us)) as [u|] eqn:Hf; [|reflexivity].
    exfalso. apply find_some in Hf as [Hu Hn].
    apply String.eqb_eq in Hn. apply in_rev in Hu.
    assert (Hin : In (Linter.name u) (map Linter.name active)).
    { apply (Permutation_in (l := map Linter.name (concat groups))).
      - apply Permutation_map. assumption.
      - rewrite <- Hnames. apply in_map. assumption. }
    apply in_map_iff in Hin as [l' [Hn' Hl']].
    apply filter_In in Hl' as [Hl' Hact].
    assert (l' = l).
    { apply (NoDup_map_inj Linter.name (linters self)); try assumption.
      - eapply nth_error_In. eassumption.
      - congruence. }
    subst l'. congruence.
  - intros i l Hi Hact.
    assert (Hl : In l (concat groups)).
    { apply (Permutation_in (l := active)); [symmetry; assumption|].
      apply filter_In. split; [|assumption].
      eapply nth_error_In. eassumption. }
    apply in_concat in Hl as [g [Hg Hlg]].
    apply In_nth_error in Hlg as [j Hj].
    assert (Hu : exists u, nth_error (run_linters g) j = Some u
                           /\ Linter.name u = Linter.name l).
    { pose proof (Hrun g) as Hg'.
      assert (Hnj : nth_error (map Linter.name (run_linters g)) j
                    = Some (Linter.name l))
        by (rewrite Hg'; apply map_nth_error; assumption).
      rewrite nth_error_map in Hnj.
      destruct (nth_error (run_linters g) j) as [u|]; [|discriminate].
      exists u. split; [reflexivity|]. simpl in Hnj. congruence. }
    destruct Hu as [u [Huj Hun]].
    exists g, j, u. repeat split; try assumption.
    rewrite Hfinal. erewrite map_nth_error by eassumption.
    assert (Hin : In u (rev us)).
    { apply in_rev. rewrite rev_involutive. unfold us.
      apply in_concat. exists (run_linters g). split.
      - apply in_map. assumption.
      - eapply nth_error_In. eassumption. }
    rewrite <- Hun. rewrite (find_by_name_unique (rev us) u Hndus Hin).
    reflexivity.
Qed.

Lemma reconcile_replaces_wholesale_witness :
  let registry :=
    [scheduled "A" "1" true; inactive "B" "1"; scheduled "C" "2" false] in
  let self := init "/tmp/lint" true registry false false in
  let final :=
    linters (process_linters_parallel (run_reporting "error" 1) self
               (filter Linter.is_active registry) true) in
  length final = length registry /\
  map Linter.name final = map Linter.name registry /\
  nth_error final 1 = Some (inactive "B" "1").
Proof.
  intros registry self final.
  assert (Hnd : NoDup (map Linter.name (linters self))).
  { simpl. repeat constructor; simpl; intuition discriminate. }
  assert (Hrun : forall g, map Linter.name (run_reporting "error" 1 g)
                           = map Linter.name g).
  { intros g. unfold run_reporting. rewrite map_map. reflexivity. }
  destruct (reconcile_replaces_wholesale (run_reporting "error" 1) self true
              Hnd Hrun) as [_ [H1 [H2 [H3 _]]]].
  split; [exact H1|]. split; [exact H2|].
  apply (H3 1%nat (inactive "B" "1")); reflexivity.
Defined.

(** ** Per-linter file collection *)

(** C7: after a linter has collected its files, if it has none and does not
    lint without files ([lint_all_files] is false) it is made inactive, and
    nothing else of it changes; with files, or with [lint_all_files], it is
    left as it is; no error is raised, and [collect_files] passes every
    linter of the registry through this step. *)
Theorem empty_linter_is_deactivated :
  forall (linter_collect_files : Linter.t -> list string -> Linter.t)
         filtered_files l,
    let l' := linter_collect_files l filtered_files in
    let r := collect_linter_files linter_collect_files filtered_files l in
    (Linter.files l' = [] -> Linter.lint_all_files l' = false ->
       Linter.is_active r = false /\ r = Linter.set_is_active l' false) /\
    (Linter.files l' <> [] \/ Linter.lint_all_files l' = true ->
       r = l' /\ Linter.is_active r = Linter.is_active l') /\
    (forall filter_files ignore_gitignore_files env self,
       match collect_files filter_files linter_collect_files
               ignore_gitignore_files env self with
       | Ok self' =>
           exists filtered_files',
             linters self' =
             map (collect_linter_files linter_collect_files filtered_files')
                 (linters self)
       | Raise e => discover env self = Raise e
       end).
Proof.
  intros lcf filtered l l' r. unfold r, collect_linter_files. fold l'.
  split; [|split].
  - intros Hf Hl. rewrite Hf, Hl. simpl. split; reflexivity.
  - intros [Hf|Hl].
    + destruct (Linter.files l') as [|f fs]; [contradiction|].
      simpl length. rewrite Nat2Z.inj_succ.
      destruct (Z.eqb_spec (Z.succ (Z.of_nat (length fs))) 0) as [E|_];
        [lia|]. simpl. split; reflexivity.
    + rewrite Hl, andb_false_r. split; reflexivity.
  - intros ff igf env self. unfold collect_files.
    destruct (discover env self) as [[all_files self1]|e] eqn:Hd; simpl;
      [|reflexivity].
    exists (ff all_files (ignored_files igf env)).
    simpl. f_equal. clear ff.
    unfold discover in Hd.
    destruct (discover_raw env self) as [[raw self2]|e] eqn:Hr;
      simpl in Hd; [|discriminate].
    injection Hd as _ <-.
    unfold discover_raw in Hr.
    destruct (0 <? Z.of_nat (length (files_to_lint env)));
      [injection Hr as _ <-; reflexivity|].
    destruct (negb (validate_all_code_base self));
      [|injection Hr as _ <-; reflexivity].
    destruct (list_files_git_diff (isfile env) (git env) self) as [fs|[]];
      try discriminate; injection Hr as _ <-; reflexivity.
Qed.

Lemma empty_linter_is_deactivated_witness :
  let lcf := fun (l : Linter.t) (fs : list string) =>
    Linter.mk (Linter.name l) (Linter.descriptor_id l) (Linter.is_active l)
      (Linter.apply_fixes l) (Linter.lint_all_files l)
      (filter (fun f => startswith f (Linter.name l)) fs)
      (Linter.status l) (Linter.return_code l) (Linter.number_fixed l) in
  Linter.is_active
    (collect_linter_files lcf ["/tmp/lint/a.py"] (scheduled "B" "1" true))
  = false.
Proof.
  intros lcf.
  destruct (empty_linter_is_deactivated lcf ["/tmp/lint/a.py"]
              (scheduled "B" "1" true)) as [H _].
  apply H; reflexivity.
Defined.

(** ** File discovery *)

Section Discovery.

Lemma string_leb_cases a b :
  String.leb a b = true <-> a = b \/ String.ltb a b = true.
Proof.
  unfold String.leb, String.ltb.
  destruct (String.compare a b) eqn:E; split; intros H; auto;
    try discriminate.
  - left. apply String.compare_eq_iff. assumption.
  - destruct H as [->|H]; [|discriminate].
    assert (Hrefl : String.compare b b = Eq)
      by (apply String_as_OT.cmp_eq; reflexivity).
    congruence.
Qed.

Lemma string_ltb_lt a b :
  String.ltb a b = true <-> String_as_OT.lt a b.
Proof.
  rewrite <- String_as_OT.cmp_lt. unfold String.ltb, String_as_OT.cmp.
  destruct (String.compare a b); split; intros H; congruence.
Qed.

Lemma string_ltb_trans a b c :
  String.ltb a b = true -> String.ltb b c = true -> String.ltb a c = true.
Proof.
  rewrite !string_ltb_lt. apply String_as_OT.lt_trans.
Qed.

Lemma string_ltb_irrefl a : String.ltb a a = false.
Proof.
  destruct (String.ltb a a) eqn:E; [|reflexivity].
  apply string_ltb_lt in E. apply String_as_OT.lt_not_eq in E.
  elim E. reflexivity.
Qed.

Lemma string_leb_trans :
  Transitive (fun a b : string => is_true (String.leb a b)).
Proof.
  intros a b c Hab Hbc. unfold is_true in *.
  apply string_leb_cases in Hab, Hbc. apply string_leb_cases.
  destruct Hab as [->|Hab]; [assumption|].
  destruct Hbc as [<-|Hbc]; [right; assumption|].
  right. eapply string_ltb_trans; eassumption.
Qed.

(** A list sorted for [<=] and without duplicates is strictly ascending. *)
Lemma sorted_nodup_ascending l :
  StronglySorted (fun a b : string => is_true (String.leb a b)) l ->
  NoDup l -> ascending l.
Proof.
  unfold ascending.
  induction 1 as [|a l Hs IH Hall]; intros Hnd; [constructor|].
  inversion Hnd as [|? ? Hnotin Hnd']; subst.
  constructor; [auto|].
  rewrite Forall_forall in *. intros x Hx.
  destruct (proj1 (string_leb_cases a x) (Hall x Hx)) as [->|H];
    [contradiction|assumption].
Qed.

Lemma ascending_NoDup l : ascending l -> NoDup l.
Proof.
  induction 1 as [|a l Hs IH Hall]; constructor; [|assumption].
  intros Hin. rewrite Forall_forall in Hall.
  pose proof (Hall a Hin) as H. rewrite string_ltb_irrefl in H. discriminate.
Qed.

(** Two strictly ascending lists with the same elements are the same
    list. *)
Lemma ascending_unique l1 : forall l2,
  ascending l1 -> ascending l2 ->
  (forall x, In x l1 <-> In x l2) -> l1 = l2.
Proof.
  unfold ascending.
  induction l1 as [|a l1 IH]; intros [|b l2] H1 H2 Hin.
  - reflexivity.
  - exfalso. apply (Hin b). left. reflexivity.
  - exfalso. apply (Hin a). left. reflexivity.
  - apply StronglySorted_inv in H1 as [H1 Ha].
    apply StronglySorted_inv in H2 as [H2 Hb].
    rewrite Forall_forall in Ha, Hb.
    assert (a = b).
    { destruct (proj1 (Hin a) (or_introl eq_refl)) as [E|Hab]; [auto|].
      destruct (proj2 (Hin b) (or_introl eq_refl)) as [E|Hba]; [auto|].
      pose proof (string_ltb_trans _ _ _ (Ha b Hba) (Hb a Hab)) as H.
      rewrite string_ltb_irrefl in H. discriminate. }
    subst b. f_equal. apply IH; try assumption.
    intros x. split; intros Hx.
    + destruct (proj1 (Hin x) (or_intror Hx)) as [<-|H]; [|assumption].
      pose proof (Ha a Hx) as H. rewrite string_ltb_irrefl in H.
      discriminate.
    + destruct (proj2 (Hin x) (or_intror Hx)) as [<-|H]; [|assumption].
      pose proof (Hb a Hx) as H. rewrite string_ltb_irrefl in H.
      discriminate.
Qed.

Lemma py_sorted_In l x : In x (py_sorted l) <-> In x l.
Proof.
  unfold py_sorted. split; apply Permutation_in;
    [symmetry|]; apply StringSort.Permuted_sort.
Qed.

Lemma py_sorted_ascending l : NoDup l -> ascending (py_sorted l).
Proof.
  intros Hnd. apply sorted_nodup_ascending.
  - apply StringSort.StronglySorted_sort. exact string_leb_trans.
  - apply (Permutation_NoDup (l := l)); [|assumption].
    apply StringSort.Permuted_sort.
Qed.

Lemma sorted_set_ascending l : ascending (py_sorted (py_set l)).
Proof. apply py_sorted_ascending. apply NoDup_nodup. Qed.

Lemma sorted_set_In l x : In x (py_sorted (py_set l)) <-> In x l.
Proof. rewrite py_sorted_In. apply nodup_In. Qed.

(** Whatever order the set is iterated in, sorting it gives the same
    list. *)
Lemma sorted_set_any_order l s :
  NoDup s -> (forall x, In x s <-> In x l) ->
  py_sorted s = py_sorted (py_set l).
Proof.
  intros Hnd Hin. apply ascending_unique.
  - apply py_sorted_ascending. assumption.
  - apply sorted_set_ascending.
  - intros x. rewrite py_sorted_In, sorted_set_In. apply Hin.
Qed.

(** Lists with the same elements give the same sorted set. *)
Lemma sorted_set_same_elements l1 l2 :
  (forall x, In x l1 <-> In x l2) ->
  py_sorted (py_set l1) = py_sorted (py_set l2).
Proof.
  intros Hin. apply ascending_unique; try apply sorted_set_ascending.
  intros x. rewrite !sorted_set_In. apply Hin.
Qed.

Lemma str_in_In x l : str_in x l = true <-> In x l.
Proof.
  unfold str_in. rewrite existsb_exists. split.
  - intros [y [Hy E]]. apply String.eqb_eq in E. subst. assumption.
  - intros H. exists x. split; [assumption|apply String.eqb_refl].
Qed.

Lemma same_tree_kind t1 t2 : same_tree t1 t2 -> is_file t1 = is_file t2.
Proof. intros H. inversion H; reflexivity. Qed.

Lemma names_where_app p es1 es2 :
  names_where p (es1 ++ es2) = names_where p es1 ++ names_where p es2.
Proof. unfold names_where. rewrite filter_app, map_app. reflexivity. Qed.

(** The walk of two listings of one tree finds the same paths. *)
Lemma walk_same_tree excluded t1 t2 :
  same_tree t1 t2 ->
  forall dirpath x,
    In x (walk excluded dirpath t1) <-> In x (walk excluded dirpath t2).
Proof.
  set (F := fun dirpath (e : string * node) =>
              if str_in (fst e) excluded then []
              else walk excluded (path_join dirpath (fst e)) (snd e)).
  revert t1 t2.
  apply (same_tree_mut
    (fun t1 t2 => forall dirpath x,
       In x (walk excluded dirpath t1) <-> In x (walk excluded dirpath t2))
    (fun es1 es2 =>
       (forall x, In x (names_where is_file es1)
                  <-> In x (names_where is_file es2)) /\
       (forall dirpath x, In x (flat_map (F dirpath) es1)
                          <-> In x (flat_map (F dirpath) es2)))).
  - intros dirpath x. reflexivity.
  - intros es1 es2 _ [Hnames Hsub] dirpath x. simpl. fold (F dirpath).
    rewrite !in_app_iff, !in_map_iff, Hsub.
    split; (intros [[n [Hn Hin]]|H]; [left; exists n; split; [exact Hn|]
                                     |right; exact H]);
      rewrite py_sorted_In in Hin |- *; apply Hnames; exact Hin.
  - split; intros; reflexivity.
  - intros k c1 c2 r1 r2a r2b Hc IHc _ [Hnames Hsub].
    pose proof (same_tree_kind _ _ Hc) as Hkind.
    split.
    + intros x. specialize (Hnames x).
      rewrite names_where_app in Hnames |- *.
      unfold names_where in *. simpl. rewrite Hkind.
      destruct (is_file c2); simpl;
        rewrite in_app_iff in *; simpl; tauto.
    + intros dirpath x. specialize (Hsub dirpath x).
      assert (HF : In x (F dirpath (k, c1)) <-> In x (F dirpath (k, c2))).
      { unfold F. simpl. destruct (str_in k excluded); [reflexivity|].
        apply IHc. }
      rewrite flat_map_app in Hsub |- *.
      change (flat_map (F dirpath) ((k, c1) :: r1))
        with (F dirpath (k, c1) ++ flat_map (F dirpath) r1).
      change (flat_map (F dirpath) ((k, c2) :: r2b))
        with (F dirpath (k, c2) ++ flat_map (F dirpath) r2b).
      rewrite in_app_iff in Hsub.
      repeat rewrite in_app_iff.
      tauto.
Qed.

(** The full scan of two listings of one tree finds the same paths. *)
Lemma list_files_all_same_tree excluded ws t1 t2 :
  same_tree t1 t2 ->
  forall x, In x (list_files_all excluded ws t1)
            <-> In x (list_files_all excluded ws t2).
Proof.
  intros Hsame x. unfold list_files_all.
  rewrite !in_app_iff, (walk_same_tree excluded t1 t2 Hsame ws x).
  assert (Hroot : forall t, In x
      (map (path_join ws)
         (filter (fun file => str_in file (names_where is_file (entries_of t)))
                 (py_sorted (map fst (entries_of t)))))
      <-> exists n, path_join ws n = x
                    /\ In n (names_where is_file (entries_of t))).
  { intros t. rewrite in_map_iff. split; intros [n [Hn Hin]]; exists n;
      (split; [exact Hn|]).
    - apply filter_In in Hin as [_ Hin]. apply str_in_In. assumption.
    - apply filter_In. split; [|apply str_in_In; assumption].
      apply py_sorted_In. unfold names_where in Hin.
      apply in_map_iff in Hin as [e [<- He]]. apply in_map.
      apply filter_In in He. tauto. }
  rewrite !Hroot.
  assert (Hnames : forall n, In n (names_where is_file (entries_of t1))
                             <-> In n (names_where is_file (entries_of t2))).
  { destruct Hsame as [|es1 es2 Hes]; [reflexivity|]. simpl.
    clear - Hes. induction Hes as [|k c1 c2 r1 r2a r2b Hc Hr IH].
    - reflexivity.
    - intros n. specialize (IH n). rewrite names_where_app in IH |- *.
      pose proof (same_tree_kind _ _ Hc) as Hkind.
      unfold names_where in *. simpl. rewrite Hkind.
      destruct (is_file c2); simpl; rewrite in_app_iff in *; simpl; tauto. }
  split; (intros [[n [Hn Hin]]|H]; [left; exists n; split; [exact Hn|]
                                   |right; exact H]);
    apply Hnames; exact Hin.
Qed.

End Discovery.

Lemma discover_full_scan env self :
  files_to_lint env = [] -> validate_all_code_base self = true ->
  discover env self =
  Ok (py_sorted (py_set (list_files_all (excluded_directories env)
                           (workspace self) (root env))),
      self).
Proof.
  intros Hf Hv. unfold discover, discover_raw. rewrite Hf, Hv. reflexivity.
Qed.

(** C4: in incremental mode, when [git] reports that the workspace is not a
    repository, discovery gives what the full scan gives and sets
    [validate_all_code_base]; so does the whole of [collect_files], which
    then returns with the flag set. *)
Theorem git_fallback_is_full_scan :
  forall env self,
    files_to_lint env = [] ->
    validate_all_code_base self = false ->
    git env = NotARepository ->
    let full := set_validate_all_code_base self true in
    discover env self =
      Ok (py_sorted (py_set (list_files_all (excluded_directories env)
                               (workspace self) (root env))),
          full) /\
    discover env self = discover env full /\
    (forall filter_files linter_collect_files ignore_gitignore_files,
       collect_files filter_files linter_collect_files
         ignore_gitignore_files env self
       = collect_files filter_files linter_collect_files
           ignore_gitignore_files env full /\
       exists self',
         collect_files filter_files linter_collect_files
           ignore_gitignore_files env self = Ok self' /\
         validate_all_code_base self' = true).
Proof.
  intros env self Hf Hv Hg full.
  assert (H1 : discover env self =
    Ok (py_sorted (py_set (list_files_all (excluded_directories env)
                             (workspace self) (root env))), full)).
  { unfold discover, discover_raw, list_files_git_diff.
    rewrite Hf, Hv, Hg. reflexivity. }
  assert (H2 : discover env full = discover env self).
  { rewrite H1. apply (discover_full_scan env full Hf). reflexivity. }
  split; [exact H1|]. split; [symmetry; exact H2|].
  intros ff lcf igf. unfold collect_files. rewrite H2, H1. simpl.
  split; [reflexivity|]. eexists. split; reflexivity.
Qed.

Lemma git_fallback_is_full_scan_witness :
  let self := init "/tmp/lint" false [] false false in
  discover example_env self =
    Ok (["/tmp/lint/a/c.py"; "/tmp/lint/b.py"]%string,
        set_validate_all_code_base self true).
Proof.
  intros self.
  destruct (git_fallback_is_full_scan example_env self
              eq_refl eq_refl eq_refl) as [H _].
  rewrite H. reflexivity.
Defined.

(** C8: in every discovery mode the list handed to filtering is strictly
    ascending (so every path is there once), holds exactly the paths that
    were found, and discovering again from the resulting state gives the
    same list; the full scan returns the same sorted list for every listing
    of an unchanged tree, whatever the order in which directories list
    their entries. *)
Theorem discovered_files_sorted_and_unique :
  forall env self,
    (forall files self',
       discover env self = Ok (files, self') ->
       ascending files /\ NoDup files /\
       (exists raw, discover_raw env self = Ok (raw, self')
                    /\ forall p, In p files <-> In p raw) /\
       discover env self' = Ok (files, self')) /\
    (files_to_lint env = [] -> validate_all_code_base self = true ->
       discover env self =
         Ok (py_sorted (py_set (list_files_all (excluded_directories env)
                                  (workspace self) (root env))), self) /\
       forall t, same_tree (root env) t ->
                 discover (with_root env t) self = discover env self).
Proof.
  intros env self. split.
  - intros files self' Hd.
    unfold discover in Hd.
    destruct (discover_raw env self) as [[raw self1]|e] eqn:Hr;
      simpl in Hd; [|discriminate].
    injection Hd as <- <-.
    split; [apply sorted_set_ascending|].
    split; [apply ascending_NoDup, sorted_set_ascending|].
    split; [exists raw; split; [reflexivity|apply sorted_set_In]|].
    unfold discover. unfold discover_raw in Hr |- *.
    destruct (0 <? Z.of_nat (length (files_to_lint env))).
    { injection Hr as <- <-. reflexivity. }
    destruct (validate_all_code_base self) eqn:Hv; simpl in Hr.
    { injection Hr as <- <-. rewrite Hv. reflexivity. }
    unfold list_files_git_diff in Hr |- *.
    destruct (git env); try discriminate; injection Hr as <- <-.
    + rewrite Hv. reflexivity.
    + reflexivity.
  - intros Hf Hv. split; [apply discover_full_scan; assumption|].
    intros t Hsame.
    rewrite (discover_full_scan env self Hf Hv).
    rewrite (discover_full_scan (with_root env t) self Hf Hv). simpl.
    f_equal. f_equal. apply sorted_set_same_elements.
    intros x. symmetry. apply list_files_all_same_tree. assumption.
Qed.

Lemma discovered_files_witness :
  let self := init "/tmp/lint" true [] false false in
  let files := ["/tmp/lint/a/c.py"; "/tmp/lint/b.py"]%string in
  discover example_env self = Ok (files, self) /\
  ascending files /\ NoDup files.
Proof.
  intros self files.
  assert (Hd : discover example_env self = Ok (files, self))
    by reflexivity.
  destruct (discovered_files_sorted_and_unique example_env self) as [H _].
  destruct (H files self Hd) as [Ha [Hn _]].
  split; [exact Hd|]. split; assumption.
Defined.

(** * Further properties *)

(** ** Workspace resolution, continued *)

(** X1: without [--input], [get_workspace] fails only when no candidate
    directory exists: the container directory is missing, and so is every
    directory the rules would build from the signals that are set. *)
Theorem get_workspace_failure_means_no_candidate :
  forall (isdir : string -> bool) docker_dir dw gw e,
    get_workspace isdir docker_dir None dw gw = Raise e ->
    isdir docker_dir = false /\
    (dw <> "" ->
       isdir dw = false /\
       isdir (docker_dir +s sep +s dw) = false /\
       (gw <> "" -> isdir (gw +s sep +s dw) = false)) /\
    (dw = "" -> gw <> "" ->
       isdir (gw +s docker_dir) = false /\
       (gw <> "/" -> isdir gw = false)).
Proof.
  intros isdir d dw gw e. unfold get_workspace.
  destruct (String.eqb_spec dw "") as [Hdw|Hdw];
    destruct (String.eqb_spec gw "") as [Hgw|Hgw];
    destruct (String.eqb_spec gw "/") as [Hroot|Hroot]; simpl;
    destruct (isdir (gw +s d)); simpl; try discriminate;
    destruct (isdir (d +s sep +s dw)); simpl; try discriminate;
    destruct (isdir dw); simpl; try discriminate;
    destruct (isdir d); simpl; try discriminate;
    destruct (isdir (gw +s sep +s dw)); simpl; try discriminate;
    destruct (isdir gw); simpl; try discriminate;
    intros _; repeat split; intros; try reflexivity; try contradiction;
    congruence.
Qed.

Lemma get_workspace_failure_witness :
  (fun _ : string => false) "/tmp/lint" = false /\
  ("ws"%string <> "" ->
     (fun _ : string => false) "ws" = false /\
     (fun _ : string => false) ("/tmp/lint" +s sep +s "ws") = false /\
     ("/github/workspace"%string <> "" ->
        (fun _ : string => false) ("/github/workspace" +s sep +s "ws")
        = false)) /\
  ("ws"%string = "" -> "/github/workspace"%string <> "" ->
     (fun _ : string => false) ("/github/workspace" +s "/tmp/lint") = false /\
     ("/github/workspace"%string <> "/" ->
        (fun _ : string => false) "/github/workspace" = false)).
Proof.
  apply (get_workspace_failure_means_no_candidate
           (fun _ => false) "/tmp/lint" "ws" "/github/workspace"
           (FileNotFoundError
              ("[Context] Unable to find a workspace to lint " +s nl
               +s "DEFAULT_WORKSPACE: " +s "ws" +s nl
               +s "GITHUB_WORKSPACE: " +s "/github/workspace"))).
  reflexivity.
Defined.

(** ** The full scan, continued *)

Section FullScan.

(** Induction on a file tree, with the property known for every entry of a
    directory. *)
Lemma node_induction (P : node -> Prop) :
  P File ->
  (forall es, Forall (fun e => P (snd e)) es -> P (Dir es)) ->
  forall n, P n.
Proof.
  intros HF HD. fix IH 1. intros [|es]; [exact HF|].
  apply HD. induction es as [|[k c] es IHes]; constructor.
  - apply IH.
  - exact IHes.
Qed.

Lemma names_where_file_In es n :
  In n (names_where is_file es) <-> In (n, File) es.
Proof.
  unfold names_where. rewrite in_map_iff. split.
  - intros [[k c] [<- H]]. apply filter_In in H as [H Hf]. simpl in *.
    destruct c; [assumption|discriminate].
  - intros H. exists (n, File). split; [reflexivity|].
    apply filter_In. split; [assumption|reflexivity].
Qed.

Lemma walk_walks_to excluded t :
  forall dirpath x,
    In x (walk excluded dirpath t) <-> walks_to excluded dirpath t x.
Proof.
  induction t as [|es IH] using node_induction; intros dirpath x.
  - simpl. split; [contradiction|]. intros H. inversion H.
  - simpl. rewrite in_app_iff, in_map_iff, in_flat_map. split.
    + intros [[n [<- Hn]]|[[d c] [He Hx]]].
      * apply walks_file. apply names_where_file_In.
        apply py_sorted_In. assumption.
      * simpl in Hx. destruct (str_in d excluded) eqn:Hex; [contradiction|].
        rewrite Forall_forall in IH. apply (IH _ He) in Hx. simpl in Hx.
        destruct c as [|sub]; [inversion Hx|].
        eapply walks_sub; eassumption.
    + intros H. inversion H as [? ? n Hn|? ? d sub ? Hd Hex Hw]; subst.
      * left. exists n. split; [reflexivity|].
        apply py_sorted_In. apply names_where_file_In. assumption.
      * right. exists (d, Dir sub). split; [assumption|]. simpl.
        rewrite Hex. rewrite Forall_forall in IH.
        apply (IH _ Hd). assumption.
Qed.

End FullScan.

(** X2: the pruned walk finds exactly the files reached through directories
    whose names are not excluded; a file is listed whatever its own name;
    and when every sub-directory of a directory is excluded, the walk lists
    the files of that directory and nothing else. *)
Theorem walk_finds_reachable_files :
  forall excluded dirpath,
    (forall t x,
       In x (walk excluded dirpath t) <-> walks_to excluded dirpath t x) /\
    (forall es n,
       In (n, File) es -> In (path_join dirpath n)
                             (walk excluded dirpath (Dir es))) /\
    (forall es x,
       (forall d sub, In (d, Dir sub) es -> str_in d excluded = true) ->
       (In x (walk excluded dirpath (Dir es))
        <-> exists n, In (n, File) es /\ x = path_join dirpath n)).
Proof.
  intros excluded dirpath. split; [|split].
  - intros t x. apply walk_walks_to.
  - intros es n Hn. apply walk_walks_to. apply walks_file. assumption.
  - intros es x Hall. rewrite walk_walks_to. split.
    + intros H. inversion H as [? ? n Hn|? ? d sub ? Hd Hex Hw]; subst.
      * exists n. split; [assumption|reflexivity].
      * rewrite (Hall d sub Hd) in Hex. discriminate.
    + intros [n [Hn ->]]. apply walks_file. assumption.
Qed.

(** X3: the files [list_files_all] lists first, those directly under the
    workspace, are found again by the walk: the full scan has the elements
    of the walk, and discovery in full-scan mode is the sorted set of the
    walk. *)
Theorem list_files_all_is_the_walk :
  forall excluded ws t,
    (forall x, In x (list_files_all excluded ws t)
               <-> In x (walk excluded ws t)) /\
    py_sorted (py_set (list_files_all excluded ws t))
    = py_sorted (py_set (walk excluded ws t)).
Proof.
  intros excluded ws t.
  assert (H : forall x, In x (list_files_all excluded ws t)
                        <-> In x (walk excluded ws t)).
  { intros x. unfold list_files_all. rewrite in_app_iff.
    split; [|intros H; right; exact H].
    intros [H|H]; [|exact H].
    apply in_map_iff in H as [n [<- Hn]].
    apply filter_In in Hn as [_ Hn]. apply str_in_In in Hn.
    destruct t as [|es]; [contradiction|]. simpl in Hn.
    apply walk_walks_to. apply walks_file.
    apply names_where_file_In. assumption. }
  split; [exact H|]. apply sorted_set_same_elements. exact H.
Qed.

(** ** Discovery modes *)

(** X4: with a list of files to lint, discovery returns exactly the listed
    files that exist under the workspace, leaves [self] as it is, and
    consults neither [git], nor the file tree, nor the validate-all flag:
    it cannot fail. *)
Theorem explicit_list_discovery :
  forall env self,
    files_to_lint env <> [] ->
    exists files,
      discover env self = Ok (files, self) /\
      (forall p, In p files <->
         exists f, In f (files_to_lint env)
                   /\ p = workspace self +s sep +s f
                   /\ isfile env p = true) /\
      (forall t excluded g gi va,
         discover (mkEnv (files_to_lint env) (isfile env) t excluded g gi)
                  (set_validate_all_code_base self va)
         = Ok (files, set_validate_all_code_base self va)).
Proof.
  intros env self Hne.
  assert (Hlen : (0 <? Z.of_nat (length (files_to_lint env))) = true).
  { destruct (files_to_lint env); [contradiction|]. reflexivity. }
  eexists. split; [|split].
  - unfold discover, discover_raw. rewrite Hlen. reflexivity.
  - intros p. simpl. rewrite sorted_set_In, filter_In, in_map_iff. split.
    + intros [[f [<- Hf]] Hp]. exists f. repeat split; assumption.
    + intros [f [Hf [-> Hp]]]. split; [|assumption]. exists f.
      split; [reflexivity|assumption].
  - intros t excluded g gi va. unfold discover, discover_raw. simpl.
    rewrite Hlen. reflexivity.
Qed.

Lemma explicit_list_discovery_witness :
  exists files,
    discover (mkEnv ["a.py"; "gone.py"]%string
                    (fun p => (p =? "/tmp/lint/a.py")%string)
                    File [] GitFailure (Raise GitCommandError))
             (init "/tmp/lint" false [] false false)
    = Ok (files, init "/tmp/lint" false [] false false) /\
    In "/tmp/lint/a.py"%string files /\
    ~ In "/tmp/lint/gone.py"%string files.
Proof.
  destruct (explicit_list_discovery
              (mkEnv ["a.py"; "gone.py"]%string
                     (fun p => (p =? "/tmp/lint/a.py")%string)
                     File [] GitFailure (Raise GitCommandError))
              (init "/tmp/lint" false [] false false))
    as [files [Hd [Hin _]]]; [discriminate|].
  exists files. split; [exact Hd|]. split.
  - apply Hin. exists "a.py"%string. repeat split. left. reflexivity.
  - intros H. apply Hin in H as [f [_ [_ H]]]. discriminate.
Defined.

(** X5: in incremental mode, when [git] answers with the lines of the diff,
    discovery returns exactly the diff lines that are files of the
    workspace, whatever the file tree holds, and the validate-all flag stays
    false. *)
Theorem incremental_discovery :
  forall env self lines,
    files_to_lint env = [] ->
    validate_all_code_base self = false ->
    git env = DiffLines lines ->
    exists files,
      discover env self = Ok (files, self) /\
      (forall p, In p files <->
         exists line, In line lines
                      /\ p = workspace self +s sep +s line
                      /\ isfile env p = true) /\
      (forall t, discover (with_root env t) self = Ok (files, self)).
Proof.
  intros env self lines Hf Hv Hg.
  eexists. split; [|split].
  - unfold discover, discover_raw, list_files_git_diff.
    rewrite Hf, Hv, Hg. reflexivity.
  - intros p. simpl. rewrite sorted_set_In, filter_In, in_map_iff. split.
    + intros [[f [<- Hl]] Hp]. exists f. repeat split; assumption.
    + intros [f [Hl [-> Hp]]]. split; [|assumption]. exists f.
      split; [reflexivity|assumption].
  - intros t. unfold discover, discover_raw, list_files_git_diff. simpl.
    rewrite Hf, Hv, Hg. reflexivity.
Qed.

Lemma incremental_discovery_witness :
  exists files,
    discover (mkEnv [] (fun _ => true) example_tree []
                    (DiffLines ["a/c.py"%string]) (Ok []))
             (init "/tmp/lint" false [] false false)
    = Ok (files, init "/tmp/lint" false [] false false) /\
    In "/tmp/lint/a/c.py"%string files.
Proof.
  destruct (incremental_discovery
              (mkEnv [] (fun _ => true) example_tree []
                     (DiffLines ["a/c.py"%string]) (Ok []))
              (init "/tmp/lint" false [] false false)
              ["a/c.py"%string] eq_refl eq_refl eq_refl)
    as [files [Hd [Hin _]]].
  exists files. split; [exact Hd|].
  apply Hin. exists "a/c.py"%string. repeat split. left. reflexivity.
Defined.

(** X6: in incremental mode, a failure of [git] other than "not a
    repository" is not recovered: discovery raises it, [collect_files]
    raises it, and no full scan takes its place. *)
Theorem git_failure_is_not_recovered :
  forall env self,
    files_to_lint env = [] ->
    validate_all_code_base self = false ->
    git env = GitFailure ->
    discover env self = Raise GitCommandError /\
    (forall filter_files linter_collect_files ignore_gitignore_files,
       collect_files filter_files linter_collect_files
         ignore_gitignore_files env self = Raise GitCommandError) /\
    discover env (set_validate_all_code_base self true)
    <> Raise GitCommandError.
Proof.
  intros env self Hf Hv Hg.
  assert (H : discover env self = Raise GitCommandError).
  { unfold discover, discover_raw, list_files_git_diff.
    rewrite Hf, Hv, Hg. reflexivity. }
  split; [exact H|]. split.
  - intros ff lcf igf. unfold collect_files. rewrite H. reflexivity.
  - rewrite (discover_full_scan env (set_validate_all_code_base self true)
               Hf eq_refl).
    discriminate.
Qed.

Lemma git_failure_is_not_recovered_witness :
  discover (mkEnv [] (fun _ => true) example_tree [] GitFailure (Ok []))
           (init "/tmp/lint" false [] false false)
  = Raise GitCommandError.
Proof.
  apply (git_failure_is_not_recovered
           (mkEnv [] (fun _ => true) example_tree [] GitFailure (Ok []))
           (init "/tmp/lint" false [] false false)
           eq_refl eq_refl eq_refl).
Defined.



(** ** Activation after file collection *)

(** X8: after [collect_files], every linter that is still active has files
    to lint or lints without files, so the linters sent to the scheduler
    all have work to do; the registry keeps its length. *)
Theorem active_linters_have_work :
  forall filter_files linter_collect_files ignore_gitignore_files env
         self self',
    collect_files filter_files linter_collect_files ignore_gitignore_files
      env self = Ok self' ->
    length (linters self') = length (linters self) /\
    (forall l, In l (linters self') -> Linter.is_active l = true ->
       Linter.files l <> [] \/ Linter.lint_all_files l = true) /\
    (forall l, In l (fst (select_active self')) ->
       Linter.files l <> [] \/ Linter.lint_all_files l = true).
Proof.
  intros ff lcf igf env self self' H.
  unfold collect_files in H.
  destruct (discover env self) as [[all_files self1]|e] eqn:Hd;
    simpl in H; [|discriminate].
  injection H as <-. simpl linters.
  assert (Hwork : forall l,
    In l (map (collect_linter_files lcf
                 (ff all_files (ignored_files igf env))) (linters self1)) ->
    Linter.is_active l = true ->
    Linter.files l <> [] \/ Linter.lint_all_files l = true).
  { intros l Hl Hact. apply in_map_iff in Hl as [l0 [<- _]].
    unfold collect_linter_files in *.
    destruct (Linter.files (lcf l0 _)) as [|f fs] eqn:Hfiles.
    - destruct (Linter.lint_all_files (lcf l0 _)) eqn:Hall.
      + simpl in *. right. assumption.
      + simpl in Hact. discriminate.
    - simpl length in *. rewrite Nat2Z.inj_succ in *.
      destruct (Z.eqb_spec (Z.succ (Z.of_nat (length fs))) 0); [lia|].
      simpl. left. rewrite Hfiles. discriminate. }
  split; [|split].
  - rewrite length_map.
    unfold discover in Hd.
    destruct (discover_raw env self) as [[raw self2]|e] eqn:Hr;
      simpl in Hd; [|discriminate].
    injection Hd as _ <-. unfold discover_raw in Hr.
    destruct (0 <? Z.of_nat (length (files_to_lint env)));
      [injection Hr as _ <-; reflexivity|].
    destruct (negb (validate_all_code_base self));
      [|injection Hr as _ <-; reflexivity].
    destruct (list_files_git_diff (isfile env) (git env) self) as [fs|[]];
      try discriminate; injection Hr as _ <-; reflexivity.
  - exact Hwork.
  - intros l Hl. rewrite select_active_spec in Hl. simpl in Hl.
    apply filter_In in Hl as [Hl Hact]. apply Hwork; assumption.
Qed.

Lemma active_linters_have_work_witness :
  let lcf := fun (l : Linter.t) (fs : list string) =>
    Linter.mk (Linter.name l) (Linter.descriptor_id l) (Linter.is_active l)
      (Linter.apply_fixes l) (Linter.lint_all_files l)
      (filter (fun f => startswith f (Linter.name l)) fs)
      (Linter.status l) (Linter.return_code l) (Linter.number_fixed l) in
  let self :=
    init "/tmp/lint" true
      [scheduled "/tmp/lint/a" "1" true; scheduled "B" "1" false]
      false false in
  exists self',
    collect_files (fun fs _ => fs) lcf true example_env self = Ok self' /\
    length (linters self') = 2%nat /\
    map Linter.is_active (linters self') = [true; false].
Proof.
  intros lcf self.
  eexists. split; [reflexivity|].
  split; [|reflexivity].
  apply (active_linters_have_work (fun fs _ => fs) lcf true example_env
           self _ eq_refl).
Defined.

(** ** Serial and parallel execution *)

Section Scheduling.

Variable run : Linter.t -> Linter.t.

Lemma ref_in_In i refs : ref_in i refs = true <-> In i refs.
Proof.
  unfold ref_in. rewrite existsb_exists. split.
  - intros [j [Hj E]]. apply Nat.eqb_eq in E. subst. assumption.
  - intros H. exists i. split; [assumption|apply Nat.eqb_refl].
Qed.

Lemma update_at_nth ls : forall j i f,
  nth_error (update_at ls j f) i =
  if Nat.eqb i j then option_map f (nth_error ls i) else nth_error ls i.
Proof.
  induction ls as [|l ls IH]; intros j i f.
  - simpl. destruct (Nat.eqb i j); destruct i; reflexivity.
  - destruct j as [|j], i as [|i]; simpl; try reflexivity. apply IH.
Qed.

Lemma fold_update_nth refs : forall ls i,
  NoDup refs ->
  nth_error (fold_left (fun ls i => update_at ls i run) refs ls) i =
  if ref_in i refs then option_map run (nth_error ls i)
  else nth_error ls i.
Proof.
  induction refs as [|j refs IH]; intros ls i Hnd; [reflexivity|].
  inversion Hnd as [|? ? Hnotin Hnd']; subst.
  simpl. rewrite IH by assumption. rewrite update_at_nth.
  destruct (Nat.eqb_spec i j) as [->|Hne]; simpl.
  - destruct (ref_in j refs) eqn:E; [|reflexivity].
    apply ref_in_In in E. contradiction.
  - reflexivity.
Qed.

Lemma active_refs_from_ge ls : forall k i,
  In i (active_refs_from k ls) -> (k <= i)%nat.
Proof.
  induction ls as [|l ls IH]; intros k i; simpl; [contradiction|].
  destruct (Linter.is_active l); simpl.
  - intros [<-|H]; [lia|]. apply IH in H. lia.
  - intros H. apply IH in H. lia.
Qed.

Lemma active_refs_from_NoDup ls : forall k, NoDup (active_refs_from k ls).
Proof.
  induction ls as [|l ls IH]; intros k; simpl; [constructor|].
  destruct (Linter.is_active l); [|apply IH].
  constructor; [|apply IH].
  intros H. apply active_refs_from_ge in H. lia.
Qed.

Lemma active_refs_from_In ls : forall k i,
  In i (active_refs_from k ls) <->
  exists l, (k <= i)%nat /\ nth_error ls (i - k) = Some l
            /\ Linter.is_active l = true.
Proof.
  induction ls as [|l ls IH]; intros k i; simpl.
  - split; [contradiction|]. intros [l [_ [H _]]].
    destruct (i - k)%nat; discriminate.
  - assert (Hrec : In i (active_refs_from (S k) ls) <->
              exists l', (k < i)%nat /\ nth_error (l :: ls) (i - k) = Some l'
                         /\ Linter.is_active l' = true).
    { rewrite IH. split; intros [l' [Hle [Hn Ha]]]; exists l'.
      - split; [lia|]. split; [|assumption].
        replace (i - k)%nat with (S (i - S k)) by lia. exact Hn.
      - split; [lia|]. split; [|assumption].
        replace (i - k)%nat with (S (i - S k)) in Hn by lia. exact Hn. }
    destruct (Linter.is_active l) eqn:Hact; simpl; rewrite Hrec.
    + split.
      * intros [<-|[l' [Hlt H]]].
        -- exists l. rewrite Nat.sub_diag. repeat split; [lia|assumption].
        -- exists l'. split; [lia|assumption].
      * intros [l' [Hle [Hn Ha]]].
        destruct (Nat.eq_dec k i) as [E|E]; [left; assumption|].
        right. exists l'. split; [lia|]. split; assumption.
    + split.
      * intros [l' [Hlt H]]. exists l'. split; [lia|assumption].
      * intros [l' [Hle [Hn Ha]]]. exists l'.
        split; [|split; assumption].
        destruct (Nat.eq_dec k i) as [E|E]; [|lia].
        subst. rewrite Nat.sub_diag in Hn. simpl in Hn.
        injection Hn as <-. congruence.
Qed.

Lemma active_refs_spec self i :
  ref_in i (active_refs self) =
  match nth_error (linters self) i with
  | Some l => Linter.is_active l
  | None => false
  end.
Proof.
  unfold active_refs.
  destruct (ref_in i (active_refs_from 0 (linters self))) eqn:E.
  - apply ref_in_In, active_refs_from_In in E as [l [_ [Hn Ha]]].
    rewrite Nat.sub_0_r in Hn. rewrite Hn. symmetry. assumption.
  - destruct (nth_error (linters self) i) as [l|] eqn:Hn; [|reflexivity].
    destruct (Linter.is_active l) eqn:Ha; [|reflexivity].
    assert (H : ref_in i (active_refs_from 0 (linters self)) = true).
    { apply ref_in_In, active_refs_from_In. exists l.
      rewrite Nat.sub_0_r. repeat split; [lia|assumption|assumption]. }
    congruence.
Qed.





End Scheduling.

Lemma deref_active_refs_from ls : forall pre,
  deref (pre ++ ls) (active_refs_from (length pre) ls)
  = filter Linter.is_active ls.
Proof.
  induction ls as [|l ls IH]; intros pre; [reflexivity|].
  simpl. specialize (IH (pre ++ [l])).
  rewrite <- app_assoc, length_app, Nat.add_1_r in IH. simpl in IH.
  destruct (Linter.is_active l); [|exact IH].
  unfold deref in *. simpl.
  rewrite nth_error_app2, Nat.sub_diag by lia. simpl.
  f_equal. exact IH.
Qed.

(** X9: the serial loop runs every active linter once, in place, and leaves
    the inactive ones as they are; the linters it runs are those the loop
    of [run] selected. *)
Theorem serial_runs_each_active_linter_once :
  forall run self flag,
    linters (process_linters_serial run self (active_refs self) flag)
    = map (fun l => if Linter.is_active l then run l else l) (linters self)
    /\ deref (linters self) (active_refs self) = fst (select_active self)
    /\ NoDup (active_refs self).
Proof.
  intros run self flag. split; [|split].
  - unfold process_linters_serial. simpl linters.
    apply nth_error_ext. intros i.
    rewrite fold_update_nth by apply active_refs_from_NoDup.
    fold (active_refs self).
    rewrite active_refs_spec, nth_error_map.
    destruct (nth_error (linters self) i) as [l|]; [|reflexivity].
    simpl. destruct (Linter.is_active l); reflexivity.
  - rewrite select_active_spec. simpl.
    apply (deref_active_refs_from (linters self) []).
  - apply active_refs_from_NoDup.
Qed.



(** ** Grouping, continued *)

(** X11: whatever the fixes flag, the groups sent to the pool hold every
    active linter exactly once, and no group is empty (so the first linter
    of a group, which the debug line reads, is always there). *)
Theorem every_active_linter_is_scheduled_once :
  forall active flag,
    Permutation (concat (linter_groups active flag)) active /\
    Forall (fun g => g <> []) (linter_groups active flag) /\
    length (concat (linter_groups active flag)) = length active.
Proof.
  intros active flag.
  pose proof (linter_groups_permutation active flag) as Hperm.
  split; [exact Hperm|]. split; [|apply Permutation_length; exact Hperm].
  apply Forall_forall. intros g Hg. unfold linter_groups in Hg.
  destruct flag.
  - destruct (linters_by_descriptor_invariant active) as [_ [Hkeys Hval]].
    apply in_map_iff in Hg as [[k g'] [<- Hin]]. simpl.
    rewrite (Hval k g' Hin).
    assert (Hk : In k (map Linter.descriptor_id active)).
    { apply Hkeys. apply (in_map fst) in Hin. exact Hin. }
    apply in_map_iff in Hk as [l [Hd Hl]].
    intros E.
    assert (Hin' : In l (of_descriptor k active)).
    { unfold of_descriptor. apply filter_In. split; [assumption|].
      apply String.eqb_eq. assumption. }
    rewrite E in Hin'. contradiction.
  - apply in_map_iff in Hg as [l [<- _]]. discriminate.
Qed.

(** X12: the dictionary of the grouping loop: a key that was set reads back
    the value set, the other keys read what they read before, a key that is
    absent reads the empty list, and setting a key keeps one entry per
    key. *)
Theorem dict_set_then_get :
  forall (d : dict) k v,
    dict_get (dict_set d k v) k = v /\
    (forall k', k' <> k -> dict_get (dict_set d k v) k' = dict_get d k') /\
    (~ In k (map fst d) -> dict_get d k = []) /\
    (NoDup (map fst d) -> NoDup (map fst (dict_set d k v))).
Proof.
  intros d k v. split; [|split; [|split]].
  - induction d as [|[k0 v0] d IH]; simpl.
    + rewrite String.eqb_refl. reflexivity.
    + destruct (String.eqb_spec k0 k) as [->|Hne]; simpl.
      * rewrite String.eqb_refl. reflexivity.
      * destruct (String.eqb_spec k0 k); [contradiction|exact IH].
  - intros k' Hne. induction d as [|[k0 v0] d IH]; simpl.
    + destruct (String.eqb_spec k k'); [congruence|reflexivity].
    + destruct (String.eqb_spec k0 k) as [->|Hne0]; simpl.
      * destruct (String.eqb_spec k k'); [congruence|reflexivity].
      * destruct (String.eqb_spec k0 k'); [reflexivity|exact IH].
  - apply dict_get_absent.
  - intros Hnd.
    destruct (in_dec string_dec k (map fst d)) as [Hin|Hnotin].
    + rewrite dict_set_keys_present; assumption.
    + rewrite dict_set_keys_absent by assumption.
      apply NoDup_app; [assumption|repeat constructor; simpl; tauto|].
      intros x Hx [<-|[]]. contradiction.
Qed.

(** ** Reconciliation, continued *)

Section ReconcileOrder.

Lemma replace_by_name_unknown ls u :
  ~ In (Linter.name u) (map Linter.name ls) -> replace_by_name ls u = ls.
Proof.
  induction ls as [|l ls IH]; simpl; intros H; [reflexivity|].
  destruct (String.eqb_spec (Linter.name l) (Linter.name u)) as [E|_].
  - elim H. left. assumption.
  - f_equal. apply IH. tauto.
Qed.

Lemma Permutation_concat_lists {A} (xs ys : list (list A)) :
  Permutation xs ys -> Permutation (concat xs) (concat ys).
Proof.
  induction 1 as [|x xs ys _ IH|x y xs|xs ys zs _ IH1 _ IH2]; simpl.
  - constructor.
  - apply Permutation_app_head. exact IH.
  - rewrite !app_assoc. apply Permutation_app_tail.
    apply Permutation_app_comm.
  - etransitivity; eassumption.
Qed.

Lemma find_by_name_permutation (us us' : list Linter.t) n :
  NoDup (map Linter.name us) -> Permutation us us' ->
  find (fun u => (Linter.name u =? n)%string) us
  = find (fun u => (Linter.name u =? n)%string) us'.
Proof.
  intros Hnd Hperm.
  assert (Hnd' : NoDup (map Linter.name us')).
  { apply (Permutation_NoDup (l := map Linter.name us)); [|assumption].
    apply Permutation_map. assumption. }
  destruct (find _ us) as [u|] eqn:Hf.
  - apply find_some in Hf as [Hu Hn]. apply String.eqb_eq in Hn. subst n.
    symmetry. apply find_by_name_unique; [assumption|].
    apply (Permutation_in (l := us)); assumption.
  - destruct (find _ us') as [u'|] eqn:Hf'; [|reflexivity].
    apply find_some in Hf' as [Hu' Hn'].
    apply (Permutation_in (l' := us)) in Hu'; [|symmetry; assumption].
    apply (find_none _ _ Hf) in Hu'. simpl in Hu'. congruence.
Qed.

End ReconcileOrder.

(** X13: reconciliation does not depend on the order in which the groups
    come back: when names identify the linters of the registry and no name
    is returned twice, any other order of the pool results gives the same
    registry. *)
Theorem reconcile_any_completion_order :
  forall ls pool_results pool_results',
    NoDup (map Linter.name ls) ->
    NoDup (map Linter.name (concat pool_results)) ->
    Permutation pool_results pool_results' ->
    reconcile ls pool_results = reconcile ls pool_results'.
Proof.
  intros ls rs rs' Hnd Hus Hperm.
  rewrite !reconcile_concat, !fold_replace_by_name by assumption.
  apply map_ext. intros l.
  rewrite (find_by_name_permutation (rev (concat rs)) (rev (concat rs'))).
  - reflexivity.
  - rewrite map_rev.
    apply (Permutation_NoDup (l := map Linter.name (concat rs)));
      [apply Permutation_rev|assumption].
  - rewrite <- !Permutation_rev. apply Permutation_concat_lists. assumption.
Qed.

Lemma reconcile_any_completion_order_witness :
  let A := scheduled "A" "1" true in
  let B := scheduled "B" "1" false in
  let C := scheduled "C" "2" true in
  let r := reporting "error" 1 in
  reconcile [A; B; C] [[r A; r B]; [r C]]
  = reconcile [A; B; C] [[r C]; [r A; r B]].
Proof.
  intros A B C r.
  apply (reconcile_any_completion_order [A; B; C]
           [[r A; r B]; [r C]] [[r C]; [r A; r B]]).
  - simpl. repeat constructor; simpl; intuition discriminate.
  - simpl. repeat constructor; simpl; intuition discriminate.
  - apply perm_swap.
Defined.

(** X14: a returned linter whose name is not in the registry is dropped:
    reconciliation neither adds it nor fails, and pool results made of such
    linters only leave the registry as it was. *)
Theorem reconcile_drops_unknown_names :
  forall ls pool_results,
    (forall u, In u (concat pool_results) ->
               ~ In (Linter.name u) (map Linter.name ls)) ->
    reconcile ls pool_results = ls.
Proof.
  intros ls rs H. rewrite reconcile_concat.
  induction (concat rs) as [|u us IH]; simpl; [reflexivity|].
  rewrite replace_by_name_unknown by (apply H; left; reflexivity).
  apply IH. intros u' Hu'. apply H. right. assumption.
Qed.

Lemma reconcile_drops_unknown_names_witness :
  reconcile [scheduled "A" "1" true] [[scheduled "Z" "9" true]]
  = [scheduled "A" "1" true].
Proof.
  apply (reconcile_drops_unknown_names
           [scheduled "A" "1" true] [[scheduled "Z" "9" true]]).
  intros u [<-|[]]. simpl. intuition discriminate.
Defined.

(** ** Aggregation, continued *)

Lemma existsb_permutation {A} (p : A -> bool) (xs ys : list A) :
  Permutation xs ys -> existsb p xs = existsb p ys.
Proof.
  induction 1 as [|x xs ys _ IH|x y xs|xs ys zs _ IH1 _ IH2]; simpl.
  - reflexivity.
  - rewrite IH. reflexivity.
  - destruct (p x), (p y); reflexivity.
  - congruence.
Qed.

(** X15: the overall status and the updated-sources flag depend on which
    linter results there are, not on their order: any reordering of the
    linters (such as the sort made for the reports) aggregates to the same
    status and the same flag; the flag is 1 exactly when some linter fixed
    a file, and 0 otherwise. *)
Theorem aggregate_status_ignores_order :
  forall ws va ls ls' fail is_cli,
    Permutation ls ls' ->
    status (aggregate (init ws va ls fail is_cli))
    = status (aggregate (init ws va ls' fail is_cli)) /\
    has_updated_sources (aggregate (init ws va ls fail is_cli))
    = has_updated_sources (aggregate (init ws va ls' fail is_cli)) /\
    (has_updated_sources (aggregate (init ws va ls fail is_cli)) = 1
     <-> exists l, In l ls /\ Linter.number_fixed l > 0) /\
    (has_updated_sources (aggregate (init ws va ls fail is_cli)) = 0
     <-> forall l, In l ls -> Linter.number_fixed l <= 0).
Proof.
  intros ws va ls ls' fail is_cli Hperm.
  unfold aggregate. simpl linters.
  rewrite !fold_status, !fold_has_updated_sources. simpl.
  rewrite (existsb_permutation blocking_issue ls ls' Hperm),
    (existsb_permutation ignored_issue ls ls' Hperm),
    (existsb_permutation (fun l => Linter.number_fixed l >? 0) ls ls' Hperm).
  split; [reflexivity|]. split; [reflexivity|].
  destruct (existsb (fun l => Linter.number_fixed l >? 0) ls') eqn:E.
  - apply existsb_exists in E as [l [Hl Hfix]].
    apply (Permutation_in (l' := ls)) in Hl; [|symmetry; assumption].
    assert (Linter.number_fixed l > 0)
      by (destruct (Z.gtb_spec (Linter.number_fixed l) 0); [lia|discriminate]).
    split; split; intros H'; try reflexivity; try discriminate.
    + exists l. split; assumption.
    + specialize (H' l Hl). lia.
  - rewrite existsb_false_iff in E.
    split; split; intros H'; try reflexivity; try discriminate.
    + destruct H' as [l [Hl Hfix]].
      apply (Permutation_in (l' := ls')) in Hl; [|assumption].
      specialize (E l Hl). simpl in E.
      destruct (Z.gtb_spec (Linter.number_fixed l) 0); [discriminate|lia].
    + intros l Hl.
      apply (Permutation_in (l' := ls')) in Hl; [|assumption].
      specialize (E l Hl). simpl in E.
      destruct (Z.gtb_spec (Linter.number_fixed l) 0); [discriminate|lia].
Qed.

Lemma aggregate_status_ignores_order_witness :
  let A := finished "A" "X" "error" 2 0 in
  let B := finished "B" "X" "warning" 0 3 in
  status (aggregate (init "/tmp/lint" true [A; B] false false))
  = status (aggregate (init "/tmp/lint" true [B; A] false false)).
Proof.
  intros A B.
  apply (aggregate_status_ignores_order "/tmp/lint" true [A; B] [B; A]
           false false).
  apply perm_swap.
Defined.

(** X16: how a run ends, from the results of its linters.  With a blocking
    issue, a CLI run exits with the last strictly positive return code (0
    with [DISABLE_ERRORS]) and a run that is not a CLI run returns; without
    one, the run exits with 1 when sources were updated and the policy is
    set, and returns otherwise.  An exit code is never negative, and an
    ["error"] run whose blocking linters all have negative return codes
    exits with 0. *)
Theorem verdict_of_a_run :
  forall disable_errors ws va ls fail is_cli,
    let self := init ws va ls fail is_cli in
    verdict disable_errors self =
      (if existsb blocking_issue ls
       then if is_cli
            then if (disable_errors =? "true")%string
                 then SysExit 0
                 else SysExit (last_return_code positive ls)
            else Returns
       else if (existsb (fun l => Linter.number_fixed l >? 0) ls && fail)%bool
            then SysExit 1
            else Returns) /\
    (forall code, verdict disable_errors self = SysExit code -> 0 <= code) /\
    (existsb blocking_issue ls = true -> is_cli = true ->
     (forall l, In l ls -> Linter.return_code l <= 0) ->
     verdict disable_errors self = SysExit 0).
Proof.
  intros de ws va ls fail is_cli self.
  assert (Hpos : 0 <= last_return_code positive ls).
  { unfold last_return_code.
    destruct (find _ (rev ls)) as [l|] eqn:Hf; [|lia].
    apply find_some in Hf as [_ Hp]. unfold positive in Hp.
    destruct (Z.gtb_spec (Linter.return_code l) 0); [lia|discriminate]. }
  assert (Hv : verdict de self =
      (if existsb blocking_issue ls
       then if is_cli
            then if (de =? "true")%string
                 then SysExit 0
                 else SysExit (last_return_code positive ls)
            else Returns
       else if (existsb (fun l => Linter.number_fixed l >? 0) ls && fail)%bool
            then SysExit 1
            else Returns)).
  { unfold verdict, check_results, check_updated_sources_failure, self,
      aggregate. simpl linters.
    destruct (fold_frame ls (init ws va ls fail is_cli)) as [-> ->].
    rewrite fold_status, fold_has_updated_sources, fold_return_code.
    unfold last_return_code. simpl.
    destruct (existsb blocking_issue ls); simpl; [reflexivity|].
    destruct (existsb ignored_issue ls); simpl;
      destruct (existsb (fun l => Linter.number_fixed l >? 0) ls);
      reflexivity. }
  split; [exact Hv|]. split.
  - intros code. rewrite Hv.
    destruct (existsb blocking_issue ls).
    + destruct is_cli; [|discriminate].
      destruct (de =? "true")%string; intros [= <-]; [lia|assumption].
    + destruct (_ && _)%bool; [|discriminate]. intros [= <-]. lia.
  - intros Hb Hcli Hneg. rewrite Hv, Hb, Hcli.
    destruct (de =? "true")%string; [reflexivity|].
    f_equal. unfold last_return_code.
    destruct (find _ (rev ls)) as [l|] eqn:Hf; [|reflexivity].
    apply find_some in Hf as [Hin Hp]. apply in_rev in Hin.
    specialize (Hneg l Hin). unfold positive in Hp.
    destruct (Z.gtb_spec (Linter.return_code l) 0); [lia|discriminate].
Qed.

(** ** Sorting by a key *)

Section SortBy.

Context {A : Type}.
Variable leb : A -> A -> bool.
Hypothesis leb_total : forall a b, leb a b = true \/ leb b a = true.
Hypothesis leb_trans :
  forall a b c, leb a b = true -> leb b c = true -> leb a c = true.

Lemma insert_by_permutation x l : Permutation (x :: l) (insert_by leb x l).
Proof.
  induction l as [|y l IH]; simpl; [reflexivity|].
  destruct (leb x y); [reflexivity|].
  rewrite perm_swap. constructor. exact IH.
Qed.

Lemma sort_by_permutation l : Permutation l (sort_by leb l).
Proof.
  induction l as [|x l IH]; simpl; [reflexivity|].
  rewrite <- insert_by_permutation. constructor. exact IH.
Qed.

Lemma insert_by_sorted x l :
  StronglySorted (fun a b => leb a b = true) l ->
  StronglySorted (fun a b => leb a b = true) (insert_by leb x l).
Proof.
  induction 1 as [|y l Hs IH Hall]; simpl.
  - repeat constructor.
  - destruct (leb x y) eqn:E.
    + constructor; [constructor; assumption|].
      constructor; [assumption|].
      rewrite Forall_forall in *. intros z Hz.
      apply (leb_trans x y z); auto.
    + constructor; [assumption|].
      assert (Hyx : leb y x = true)
        by (destruct (leb_total x y); [congruence|assumption]).
      rewrite Forall_forall in *. intros z Hz.
      apply (Permutation_in (l' := x :: l)) in Hz;
        [|symmetry; apply insert_by_permutation].
      destruct Hz as [<-|Hz]; auto.
Qed.

Lemma sort_by_sorted l :
  StronglySorted (fun a b => leb a b = true) (sort_by leb l).
Proof.
  induction l as [|x l IH]; simpl; [constructor|].
  apply insert_by_sorted. exact IH.
Qed.

(** Stability: the elements of a class of equal keys keep their order. *)
Lemma insert_by_stable (p : A -> bool) x l :
  (forall a b, p a = true -> p b = true -> leb a b = true) ->
  filter p (insert_by leb x l) = filter p (x :: l).
Proof.
  intros Hp. induction l as [|y l IH]; simpl in *; [reflexivity|].
  destruct (leb x y) eqn:E; [reflexivity|]. simpl. rewrite IH.
  destruct (p x) eqn:Hx, (p y) eqn:Hy; try reflexivity.
  rewrite (Hp x y Hx Hy) in E. discriminate.
Qed.

Lemma sort_by_stable (p : A -> bool) l :
  (forall a b, p a = true -> p b = true -> leb a b = true) ->
  filter p (sort_by leb l) = filter p l.
Proof.
  intros Hp. induction l as [|x l IH]; simpl; [reflexivity|].
  rewrite insert_by_stable by assumption. simpl. rewrite IH. reflexivity.
Qed.

End SortBy.

Section KeyOrders.

Lemma string_compare_refl s : String.compare s s = Eq.
Proof. apply String_as_OT.cmp_eq. reflexivity. Qed.

Lemma string_compare_lt_ltb a b :
  String.compare a b = Lt <-> String.ltb a b = true.
Proof.
  unfold String.ltb. destruct (String.compare a b); split; congruence.
Qed.

Lemma string_compare_gt_ltb a b :
  String.compare a b = Gt <-> String.ltb b a = true.
Proof.
  rewrite <- string_compare_lt_ltb, (String.compare_antisym b a).
  destruct (String.compare a b); simpl; split; congruence.
Qed.

Lemma string_leb_refl s : String.leb s s = true.
Proof. unfold String.leb. rewrite string_compare_refl. reflexivity. Qed.

(** The order of a pair of keys, the second one a string. *)
Lemma pair_leb_total (c1 : comparison) (c2 : comparison) a b :
  c2 = CompOpp c1 ->
  (match c1 with Lt => true | Gt => false | Eq => String.leb a b end) = true
  \/ (match c2 with Lt => true | Gt => false | Eq => String.leb b a end)
     = true.
Proof.
  intros ->. destruct c1; simpl; auto. apply String.leb_total.
Qed.

Lemma report_key_leb_total a b :
  report_key_leb a b = true \/ report_key_leb b a = true.
Proof.
  unfold report_key_leb. apply pair_leb_total.
  apply String.compare_antisym.
Qed.

Lemma report_key_leb_spec a b :
  report_key_leb a b = true <->
  String.ltb (Linter.descriptor_id a) (Linter.descriptor_id b) = true \/
  (Linter.descriptor_id a = Linter.descriptor_id b
   /\ String.leb (Linter.name a) (Linter.name b) = true).
Proof.
  unfold report_key_leb.
  destruct (String.compare (Linter.descriptor_id a) (Linter.descriptor_id b))
    eqn:E.
  - apply String.compare_eq_iff in E. rewrite E, string_ltb_irrefl.
    split; [intros H; right; split; [reflexivity|exact H]|].
    intros [H|[_ H]]; [discriminate|exact H].
  - apply string_compare_lt_ltb in E. split; [intros _; left; exact E|].
    reflexivity.
  - apply string_compare_gt_ltb in E. split; [discriminate|].
    intros [H|[H _]].
    + pose proof (string_ltb_trans _ _ _ E H) as H'.
      rewrite string_ltb_irrefl in H'. discriminate.
    + rewrite H, string_ltb_irrefl in E. discriminate.
Qed.

Lemma report_key_leb_trans a b c :
  report_key_leb a b = true -> report_key_leb b c = true ->
  report_key_leb a c = true.
Proof.
  rewrite !report_key_leb_spec.
  intros [H1|[E1 H1]] [H2|[E2 H2]].
  - left. eapply string_ltb_trans; eassumption.
  - left. rewrite <- E2. assumption.
  - left. rewrite E1. assumption.
  - right. split; [congruence|].
    exact (string_leb_trans _ _ _ H1 H2).
Qed.




End KeyOrders.

(** ** Sorting the linters *)

(** X17: the sort made before the reports keeps every linter, once, orders
    them by conflict class and then by name, keeps the order of linters of
    one class and name, and changes nothing else of the state (the status
    and the exit code were computed before it). *)
Theorem linters_sorted_for_reports :
  forall self,
    Permutation (linters self) (linters (sort_for_reports self)) /\
    StronglySorted (fun a b => report_key_leb a b = true)
      (linters (sort_for_reports self)) /\
    (forall a b, report_key_leb a b = true <->
       String.ltb (Linter.descriptor_id a) (Linter.descriptor_id b) = true \/
       (Linter.descriptor_id a = Linter.descriptor_id b
        /\ String.leb (Linter.name a) (Linter.name b) = true)) /\
    (forall d n,
       let same l := ((Linter.descriptor_id l =? d)
                      && (Linter.name l =? n))%string%bool in
       filter same (linters (sort_for_reports self))
       = filter same (linters self)) /\
    status (sort_for_reports self) = status self /\
    return_code (sort_for_reports self) = return_code self /\
    has_updated_sources (sort_for_reports self) = has_updated_sources self.
Proof.
  intros self. unfold sort_for_reports. simpl.
  split; [apply sort_by_permutation|].
  split; [apply sort_by_sorted;
          [exact report_key_leb_total|exact report_key_leb_trans]|].
  split; [exact report_key_leb_spec|].
  split; [|repeat split].
  intros d n. apply sort_by_stable.
  intros a b Ha Hb.
  apply andb_true_iff in Ha as [Ha1 Ha2], Hb as [Hb1 Hb2].
  apply String.eqb_eq in Ha1, Ha2, Hb1, Hb2.
  apply report_key_leb_spec. right. split; [congruence|].
  rewrite Ha2, Hb2. apply string_leb_refl.
Qed.



(** ** File extensions *)

Section FromKeys.

Lemma str_in_false x l : str_in x l = false <-> ~ In x l.
Proof.
  rewrite <- str_in_In. destruct (str_in x l); split; intros H;
    try reflexivity; try discriminate; try congruence.
Qed.

Lemma fromkeys_fold l : forall keys,
  NoDup keys ->
  NoDup (fold_left fromkeys_step l keys) /\
  (forall x, In x (fold_left fromkeys_step l keys) <-> In x keys \/ In x l).
Proof.
  induction l as [|k l IH]; intros keys Hnd; simpl.
  - split; [assumption|]. intros x. tauto.
  - assert (Hnd' : NoDup (fromkeys_step keys k)).
    { unfold fromkeys_step. destruct (str_in k keys) eqn:E; [assumption|].
      apply str_in_false in E.
      apply NoDup_app; [assumption|repeat constructor; simpl; tauto|].
      intros x Hx [<-|[]]. contradiction. }
    destruct (IH (fromkeys_step keys k) Hnd') as [H1 H2].
    split; [exact H1|]. intros x. rewrite H2. unfold fromkeys_step.
    destruct (str_in k keys) eqn:E.
    + apply str_in_In in E. split; [tauto|].
      intros [H|[<-|H]]; tauto.
    + rewrite in_app_iff. simpl. tauto.
Qed.

Lemma fromkeys_fold_nodup l : forall keys,
  NoDup (keys ++ l) -> fold_left fromkeys_step l keys = keys ++ l.
Proof.
  induction l as [|k l IH]; intros keys Hnd; simpl.
  - rewrite app_nil_r. reflexivity.
  - assert (E : str_in k keys = false).
    { apply str_in_false. intros Hin.
      apply NoDup_remove_2 in Hnd. apply Hnd.
      apply in_or_app. left. assumption. }
    unfold fromkeys_step at 2. rewrite E.
    rewrite IH; rewrite <- app_assoc; [reflexivity|exact Hnd].
Qed.

(** The keys found from [keys] on are [keys], then the keys found from
    nothing on that are not in [keys]. *)
Lemma fromkeys_fold_from l : forall keys,
  fold_left fromkeys_step l keys =
  keys ++ filter (fun k => negb (str_in k keys)) (fold_left fromkeys_step l []).
Proof.
  induction l as [|k l IH] using rev_ind; intros keys.
  - simpl. rewrite app_nil_r. reflexivity.
  - rewrite !fold_left_app. simpl. rewrite (IH keys).
    set (r0 := fold_left fromkeys_step l []).
    unfold fromkeys_step.
    destruct (str_in k keys) eqn:Ek.
    + assert (E : str_in k (keys ++ filter (fun k0 => negb (str_in k0 keys)) r0)
                  = true).
      { apply str_in_In, in_or_app. left. apply str_in_In. assumption. }
      rewrite E. f_equal.
      destruct (str_in k r0); [reflexivity|].
      rewrite filter_app. simpl. rewrite Ek. simpl.
      rewrite app_nil_r. reflexivity.
    + assert (E : str_in k (keys ++ filter (fun k0 => negb (str_in k0 keys)) r0)
                  = str_in k r0).
      { destruct (str_in k r0) eqn:E0.
        - apply str_in_In, in_or_app. right. apply filter_In.
          split; [apply str_in_In; assumption|]. rewrite Ek. reflexivity.
        - apply str_in_false. intros Hin. apply in_app_or in Hin.
          destruct Hin as [Hin|Hin].
          + apply str_in_In in Hin. congruence.
          + apply filter_In in Hin as [Hin _]. apply str_in_In in Hin.
            congruence. }
      rewrite E. destruct (str_in k r0); [reflexivity|].
      rewrite filter_app. simpl. rewrite Ek. simpl.
      rewrite app_assoc. reflexivity.
Qed.

End FromKeys.

(** X19: [self.file_extensions] holds every extension of every loaded
    linter, each once, in the order of first occurrence: the first
    extension comes first and the rest are the extensions of the rest
    without it; a list without duplicates is left as it is, so the
    deduplication is idempotent. *)
Theorem file_extensions_first_occurrences :
  forall l,
    NoDup (fromkeys l) /\
    (forall x, In x (fromkeys l) <-> In x l) /\
    (forall x l', l = x :: l' ->
       fromkeys l
       = x :: filter (fun k => negb (str_in k [x])) (fromkeys l')) /\
    (NoDup l -> fromkeys l = l) /\
    fromkeys (fromkeys l) = fromkeys l /\
    (forall linters c e,
       In c linters -> In e (Candidate.file_extensions c) ->
       In e (fst (compute_file_extensions linters))).
Proof.
  intros l. unfold fromkeys.
  destruct (fromkeys_fold l [] (NoDup_nil _)) as [Hnd Hin].
  split; [exact Hnd|]. split; [intros x; rewrite Hin; simpl; tauto|].
  split; [|split; [|split]].
  - intros x l' ->. simpl. apply (fromkeys_fold_from l' [x]).
  - intros H. apply (fromkeys_fold_nodup l []). exact H.
  - apply (fromkeys_fold_nodup _ []). exact Hnd.
  - intros linters c e Hc He. unfold compute_file_extensions. simpl.
    unfold fromkeys.
    apply (proj2 (fromkeys_fold _ [] (NoDup_nil _))).
    right. apply in_flat_map. exists c. split; assumption.
Qed.

(** ** Default activation *)

(** X20: after [manage_default_linter_activation] the linters are active by
    default exactly when they were before, no descriptor or linter is
    enabled by name, and no variable [VALIDATE_...] other than
    [VALIDATE_ALL_CODEBASE] is set to ["true"]; the function never turns
    the default on. *)
Theorem default_activation_rule :
  forall enable_descriptors enable_linters (c : config) default,
    (manage_default_linter_activation enable_descriptors enable_linters c
       default = true <->
     default = true /\ enable_descriptors = [] /\ enable_linters = [] /\
     forall env_var, In env_var (map fst c) ->
       startswith env_var "VALIDATE_" = true ->
       env_var <> "VALIDATE_ALL_CODEBASE" ->
       config_get c env_var <> Some "true"%string) /\
    (default = false ->
     manage_default_linter_activation enable_descriptors enable_linters c
       default = false).
Proof.
  intros ed el c default.
  unfold manage_default_linter_activation.
  set (step := fun (d : bool) env_var =>
                 if legacy_validate_var env_var
                 then if config_is_true c env_var then false else d
                 else d).
  assert (Hfold : forall keys d,
    fold_left step keys d =
    (d && forallb (fun k => negb (legacy_validate_var k
                                  && config_is_true c k)) keys)%bool).
  { induction keys as [|k keys IH]; intros d; simpl.
    - rewrite andb_true_r. reflexivity.
    - rewrite IH. unfold step.
      destruct (legacy_validate_var k), (config_is_true c k), d;
        reflexivity. }
  rewrite Hfold.
  assert (Hall : forallb (fun k => negb (legacy_validate_var k
                                         && config_is_true c k)) (map fst c)
                 = true <->
                 forall env_var, In env_var (map fst c) ->
                   startswith env_var "VALIDATE_" = true ->
                   env_var <> "VALIDATE_ALL_CODEBASE" ->
                   config_get c env_var <> Some "true"%string).
  { rewrite forallb_forall. split.
    - intros H k Hk Hs Hne Hget. specialize (H k Hk).
      unfold legacy_validate_var, config_is_true in H.
      rewrite Hs, Hget in H. simpl in H.
      destruct (String.eqb_spec k "VALIDATE_ALL_CODEBASE");
        [contradiction|discriminate].
    - intros H k Hk. unfold legacy_validate_var, config_is_true.
      destruct (startswith k "VALIDATE_") eqn:Hs; [|reflexivity].
      destruct (String.eqb_spec k "VALIDATE_ALL_CODEBASE") as [E|Hne];
        [reflexivity|]. simpl.
      destruct (config_get c k) as [v|] eqn:Hget; [|reflexivity].
      destruct (String.eqb_spec v "true") as [->|_]; [|reflexivity].
      elim (H k Hk Hs Hne). assumption. }
  split.
  - rewrite andb_true_iff, Hall.
    destruct ed as [|d ed], el as [|l el]; simpl; split.
    + intros [H1 H2]. repeat split; assumption.
    + intros [H1 [_ [_ H2]]]. split; assumption.
    + intros [H _]. discriminate.
    + intros [_ [_ [H _]]]. discriminate.
    + intros [H _]. discriminate.
    + intros [_ [H _]]. discriminate.
    + intros [H _]. discriminate.
    + intros [_ [H _]]. discriminate.
  - intros ->. destruct ((_ || _)%bool); reflexivity.
Qed.

(** ** Ignored files *)

Section IgnoredFiles.

Lemma startswith_sep_append a b :
  startswith a sep = true -> startswith (a +s b) sep = true.
Proof.
  unfold startswith, sep. destruct a as [|c a]; [discriminate|].
  cbn [String.prefix String.append].
  destruct (ascii_dec "/" c); [|discriminate].
  intros _. destruct (a +s b); reflexivity.
Qed.

(** A path joined to an absolute path is absolute. *)
Lemma path_join_absolute a b :
  startswith a sep = true -> startswith (path_join a b) sep = true.
Proof.
  intros Ha. unfold path_join.
  destruct (startswith b sep) eqn:Hb; [exact Hb|].
  destruct ((a =? "")%string || endswith_sep a)%bool.
  - apply startswith_sep_append. exact Ha.
  - apply startswith_sep_append, startswith_sep_append. exact Ha.
Qed.

End IgnoredFiles.

(** X21: the ignored files are returned as absolute patterns when the
    repository path is absolute, as many as [git] listed, in ascending
    order; a listed directory (a line that ends with a slash) becomes the
    pattern of everything below it. *)
Theorem git_ignored_patterns_are_absolute :
  forall dirpath lines,
    startswith dirpath sep = true ->
    let ignored := list_git_ignored_files dirpath lines in
    length ignored = length lines /\
    Forall (fun p => startswith p sep = true) ignored /\
    StronglySorted (fun a b => String.leb a b = true) ignored /\
    (forall x, In x lines -> endswith_sep x = false ->
               In (path_join dirpath x) ignored) /\
    (forall x, In x lines -> endswith_sep x = true ->
               In (path_join dirpath (x +s "**")) ignored).
Proof.
  intros dirpath lines Habs ignored.
  unfold ignored, list_git_ignored_files.
  set (pats := map (fun x => path_join dirpath x)
                 (map (fun x => if endswith_sep x then x +s "**" else x)
                      lines)).
  assert (Hperm : Permutation pats (py_sorted pats))
    by apply StringSort.Permuted_sort.
  split; [|split; [|split; [|split]]].
  - rewrite <- (Permutation_length Hperm). unfold pats.
    rewrite !length_map. reflexivity.
  - apply Forall_forall. intros p Hp. rewrite py_sorted_In in Hp.
    unfold pats in Hp. apply in_map_iff in Hp as [y [<- _]].
    apply path_join_absolute. exact Habs.
  - apply StringSort.StronglySorted_sort. exact string_leb_trans.
  - intros x Hx He. rewrite py_sorted_In. unfold pats.
    apply in_map. apply in_map_iff. exists x. rewrite He.
    split; [reflexivity|assumption].
  - intros x Hx He. rewrite py_sorted_In. unfold pats.
    apply in_map. apply in_map_iff. exists x. rewrite He.
    split; [reflexivity|assumption].
Qed.

Lemma git_ignored_patterns_witness :
  list_git_ignored_files "/tmp/lint" ["node_modules/"; "a.log"]%string
  = ["/tmp/lint/a.log"; "/tmp/lint/node_modules/**"]%string /\
  Forall (fun p => startswith p sep = true)
    (list_git_ignored_files "/tmp/lint" ["node_modules/"; "a.log"]%string).
Proof.
  split; [reflexivity|].
  apply (git_ignored_patterns_are_absolute "/tmp/lint"
           ["node_modules/"; "a.log"]%string eq_refl).
Defined.

(** ** What discovery changes *)



(** ** The report folder *)

Section ReportFolder.

Lemma contains_sep_cons c s :
  str_contains "/" (String c s) = (Ascii.eqb c "/" || str_contains "/" s)%bool.
Proof.
  cbn [str_contains String.prefix].
  destruct (ascii_dec "/" c) as [<-|Hne].
  - destruct s; reflexivity.
  - destruct (Ascii.eqb_spec c "/") as [->|_]; [contradiction|].
    reflexivity.
Qed.

Lemma head_of_no_sep p : str_contains "/" p = false -> head_of p = "".
Proof.
  destruct p as [|c p]; [reflexivity|].
  rewrite contains_sep_cons. intros H.
  apply orb_false_iff in H as [Hc Hp].
  cbn [head_of]. rewrite Hp, Hc. reflexivity.
Qed.

Lemma head_basename p : head_of p +s basename p = p.
Proof.
  induction p as [|c p IH]; [reflexivity|].
  cbn [head_of basename].
  destruct (str_contains "/" p).
  - simpl. rewrite IH. reflexivity.
  - destruct (Ascii.eqb_spec c "/") as [->|_]; reflexivity.
Qed.

Lemma basename_no_sep p : str_contains "/" (basename p) = false.
Proof.
  induction p as [|c p IH]; [reflexivity|].
  cbn [basename].
  destruct (str_contains "/" p) eqn:E; [exact IH|].
  destruct (Ascii.eqb_spec c "/") as [->|Hne]; [exact E|].
  rewrite contains_sep_cons, E.
  destruct (Ascii.eqb_spec c "/"); [contradiction|reflexivity].
Qed.

Lemma config_set_get (c : config) k v :
  config_get (config_set c k v) k = Some v /\
  (forall k', k' <> k ->
     config_get (config_set c k v) k' = config_get c k').
Proof.
  split.
  - induction c as [|[k0 v0] c IH]; simpl.
    + rewrite String.eqb_refl. reflexivity.
    + destruct (String.eqb_spec k0 k) as [->|Hne]; simpl.
      * rewrite String.eqb_refl. reflexivity.
      * destruct (String.eqb_spec k0 k); [contradiction|exact IH].
  - intros k' Hne. induction c as [|[k0 v0] c IH]; simpl.
    + destruct (String.eqb_spec k k'); [congruence|reflexivity].
    + destruct (String.eqb_spec k0 k) as [->|Hne0]; simpl.
      * destruct (String.eqb_spec k k'); [congruence|reflexivity].
      * destruct (String.eqb_spec k0 k'); [reflexivity|exact IH].
Qed.

End ReportFolder.

(** X23: what [--output] does to the report settings.  A SARIF file name
    taken from [--output] never holds a slash, and what [--output] holds
    before it is the part up to the last slash; no other variable of the
    configuration changes.  An [--output] without [.sarif] that is not a
    directory is ignored: the report folder is the configured one, where
    [REPORT_OUTPUT_FOLDER] comes before [OUTPUT_FOLDER] and the default
    folder of the workspace last. *)
Theorem output_argument_settings :
  forall (isdir : string -> bool) report_folder_name github_workspace
         arg_output (c : config),
    let configured :=
      config_get_default c "REPORT_OUTPUT_FOLDER"
        (config_get_default c "OUTPUT_FOLDER"
           (github_workspace +s sep +s report_folder_name)) in
    let r := initialize_output isdir report_folder_name github_workspace
               arg_output c in
    (forall output,
       arg_output = Some output -> str_contains ".sarif" output = true ->
       exists file_name,
         config_get (snd r) "SARIF_REPORTER_FILE_NAME" = Some file_name /\
         str_contains "/" file_name = false /\
         head_of output +s file_name = output /\
         (str_contains "/" output = true -> fst r = dirname output) /\
         (str_contains "/" output = false -> fst r = configured)) /\
    (forall k, k <> "SARIF_REPORTER_FILE_NAME"%string ->
       config_get (snd r) k = config_get c k) /\
    (forall output,
       arg_output = Some output -> str_contains ".sarif" output = false ->
       snd r = c /\ fst r = if isdir output then output else configured) /\
    (arg_output = None -> r = (configured, c)).
Proof.
  intros isdir rfn gw arg c configured r.
  unfold r, initialize_output. fold configured.
  split; [|split; [|split]].
  - intros output -> Hs. rewrite Hs.
    destruct (str_contains "/" output) eqn:Hsl; simpl.
    + exists (basename output).
      split; [apply config_set_get|].
      split; [apply basename_no_sep|].
      split; [apply head_basename|].
      split; [reflexivity|discriminate].
    + exists output.
      split; [apply config_set_get|].
      split; [exact Hsl|].
      split; [|split; [discriminate|reflexivity]].
      rewrite (head_of_no_sep output Hsl). reflexivity.
  - intros k Hk. destruct arg as [output|]; [|reflexivity].
    destruct (str_contains ".sarif" output).
    + destruct (str_contains "/" output); simpl;
        apply config_set_get; assumption.
    + destruct (isdir output); reflexivity.
  - intros output -> Hs. rewrite Hs.
    destruct (isdir output); split; reflexivity.
  - intros ->. reflexivity.
Qed.

(** ** Workspace resolution: the directory returned *)

(** X24: with [--input], and without it whenever the rule "Docker run
    without override of DEFAULT_WORKSPACE" is not the one that fires, the
    workspace [get_workspace] returns is a directory that exists. *)
Theorem get_workspace_returns_existing_directory :
  forall (isdir : string -> bool) docker_dir arg_input dw gw p,
    get_workspace isdir docker_dir arg_input dw gw = Ok p ->
    arg_input <> None \/ docker_default_rule isdir docker_dir dw gw = false ->
    isdir p = true.
Proof.
  intros isdir d ai dw gw p Hok Hrule.
  destruct (get_workspace_returns_tested_directory isdir d ai dw gw p Hok)
    as [H|[Hnone [Hfire _]]]; [exact H|].
  destruct Hrule as [Hin|Hnot]; [contradiction|congruence].
Qed.

Lemma get_workspace_returns_existing_directory_witness :
  (fun p => (p =? "/github/workspace")%string) "/github/workspace" = true.
Proof.
  apply (get_workspace_returns_existing_directory
           (fun p => (p =? "/github/workspace")%string) "/tmp/lint"
           None "" "/github/workspace" "/github/workspace").
  - reflexivity.
  - right. reflexivity.
Defined.
